(** * Player lifecycle and controls overlay of channel-surf-helper

    A shallow embedding of [src/components/VideoPlayer.tsx] and
    [src/components/ChannelControls.tsx].

    The component state (refs, React state, the browser globals it reads)
    is one record, [world].  The component's functions are written in a
    small resumption monad [js]: synchronous code reads and writes the
    world, [Throw] is a JavaScript exception, and [Await] is a suspension
    point of an [async] function.  The streaming engine is an external
    library: the calls made to it are recorded in a trace, and the moment
    and the outcome of the promises it returns are chosen by the
    environment, through the scheduler of section [Scheduler].  The
    browser's answer to [play()] on the video element is the
    environment's as well: it is part of the element, [el_play_refused]. *)

From Stdlib Require Import List String Ascii Bool Arith ZArith QArith Lia.
Import ListNotations.
Local Open Scope string_scope.
Local Open Scope list_scope.

(** ** Data model *)

(** Modelled from the spec: the [Channel] type of [@/lib/channels], which
    the component imports; the spec gives it an identifier, a display
    name, a playback URL and an optional DRM key string. *)
Record Channel : Type := mkChannel {
  channel_id : string;
  channel_name : string;
  url : string;
  drmKey : option string          (* [drmKey?: string]; [None] is undefined *)
}.

(** The DOM video element behind [videoRef]: the two attributes the
    component drives, as its calls leave them, and the answer the
    browser gives to [play()] on it.  A call of [play()] is refused, for
    instance, by the autoplay policy when no user gesture is under way,
    or when the element has no playable source; [el_play_refused] then
    holds the error the promise returned by [play()] rejects with.
    JavaScript numbers are modelled as rationals; the values that occur
    are 0, 1 and n/100 for a slider position n. *)
Record HTMLVideoElement : Type := mkVideo {
  el_volume : Q;
  el_paused : bool;
  el_play_refused : option string
}.

(** The element after a call of [play()]: playback starts unless the
    browser refuses the call; a refused call leaves the element as it
    was. *)
Definition after_play (v : HTMLVideoElement) : HTMLVideoElement :=
  match el_play_refused v with
  | None => mkVideo (el_volume v) false None
  | Some _ => v
  end.

(** Identity of an engine instance ([new shaka.Player(...)]). *)
Definition player := nat.

Record RetryParameters : Type := mkRetry {
  maxAttempts : Z;
  baseDelay : Z;
  backoffFactor : Z;
  timeout : option Z
}.

Record AbrConfig : Type := mkAbr {
  enabled : bool;
  defaultBandwidthEstimate : Z;
  switchInterval : Z;
  bandwidthUpgradeTarget : Q;
  bandwidthDowngradeTarget : Q
}.

Record StreamingConfig : Type := mkStreaming {
  bufferingGoal : Z;
  rebufferingGoal : Z;
  streaming_retryParameters : RetryParameters
}.

(** The two option objects handed to [player.configure].  A JavaScript
    object used as a map is an association list; a value that is
    [undefined] is [None]. *)
Inductive config : Type :=
| PlaybackConfig (abr : AbrConfig) (streaming : StreamingConfig)
| DrmConfig (clearKeys : list (string * option string))
            (drm_retryParameters : RetryParameters).

(** A promise an [async] function can be suspended on. *)
Inductive promise : Type :=
| PResolved                          (* already settled: resumes on a later tick *)
| PDestroy (p : player)              (* [player.destroy()] *)
| PLoad (p : player) (u : string).   (* [player.load(url)] *)

Inductive settled : Type :=
| Fulfilled
| Rejected (error : string).

(** What the component does to the outside, in the order it does it. *)
Inductive event : Type :=
| EInstallAll                                   (* shaka.polyfill.installAll() *)
| EConstruct (p : player) (attached : bool)     (* new shaka.Player(videoRef.current) *)
| EConfigure (p : player) (c : config)          (* player.configure(c) *)
| EAddErrorListener (p : player)
| EDestroyCall (p : player)                     (* player.destroy() *)
| ELoadCall (p : player) (u : string)           (* player.load(u) *)
| ESettled (pr : promise) (s : settled)         (* the engine settles a promise *)
| EPlay                                         (* videoRef.current.play() *)
| EPause                                        (* videoRef.current.pause() *)
| ELog (msg arg : string)                       (* console.log *)
| EError (msg arg : string)                     (* console.error *)
| EUnhandledRejection (error : string).

(** The part of [window.shaka] the component relies on. *)
Record Shaka : Type := mkShaka {
  isBrowserSupported : bool;
  configure_throws : config -> option string
}.

Record world : Type := mkWorld {
  videoRef : option HTMLVideoElement;   (* videoRef.current *)
  shakaPlayerRef : option player;       (* shakaPlayerRef.current *)
  isPlaying : bool;
  volume : Q;
  showControls : bool;
  isMuted : bool;
  window_shaka : option Shaka;          (* window.shaka *)
  next_player : player;                 (* identity of the next instance *)
  trace : list event                    (* what was done so far, newest first *)
}.

Definition set_videoRef (x : option HTMLVideoElement) (w : world) : world :=
  mkWorld x (shakaPlayerRef w) (isPlaying w) (volume w) (showControls w)
          (isMuted w) (window_shaka w) (next_player w) (trace w).

Definition set_shakaPlayerRef (x : option player) (w : world) : world :=
  mkWorld (videoRef w) x (isPlaying w) (volume w) (showControls w)
          (isMuted w) (window_shaka w) (next_player w) (trace w).

Definition set_isPlaying (x : bool) (w : world) : world :=
  mkWorld (videoRef w) (shakaPlayerRef w) x (volume w) (showControls w)
          (isMuted w) (window_shaka w) (next_player w) (trace w).

Definition set_volume (x : Q) (w : world) : world :=
  mkWorld (videoRef w) (shakaPlayerRef w) (isPlaying w) x (showControls w)
          (isMuted w) (window_shaka w) (next_player w) (trace w).

Definition set_showControls (x : bool) (w : world) : world :=
  mkWorld (videoRef w) (shakaPlayerRef w) (isPlaying w) (volume w) x
          (isMuted w) (window_shaka w) (next_player w) (trace w).

Definition set_isMuted (x : bool) (w : world) : world :=
  mkWorld (videoRef w) (shakaPlayerRef w) (isPlaying w) (volume w)
          (showControls w) x (window_shaka w) (next_player w) (trace w).

Definition set_window_shaka (x : option Shaka) (w : world) : world :=
  mkWorld (videoRef w) (shakaPlayerRef w) (isPlaying w) (volume w)
          (showControls w) (isMuted w) x (next_player w) (trace w).

Definition set_next_player (x : player) (w : world) : world :=
  mkWorld (videoRef w) (shakaPlayerRef w) (isPlaying w) (volume w)
          (showControls w) (isMuted w) (window_shaka w) x (trace w).

Definition record (e : event) (w : world) : world :=
  mkWorld (videoRef w) (shakaPlayerRef w) (isPlaying w) (volume w)
          (showControls w) (isMuted w) (window_shaka w) (next_player w)
          (e :: trace w).

(** The trace in the order things happened. *)
Definition history (w : world) : list event := rev (trace w).

(** ** The monad of component code *)

Inductive js (A : Type) : Type :=
| Ret (a : A)                               (* normal completion *)
| Throw (error : string)                    (* exception / rejection *)
| Get (k : world -> js A)
| Put (w : world) (k : js A)
| Await (pr : promise) (k : settled -> js A).

Arguments Ret {A} a.
Arguments Throw {A} error.
Arguments Get {A} k.
Arguments Put {A} w k.
Arguments Await {A} pr k.

Fixpoint bind {A B : Type} (m : js A) (f : A -> js B) : js B :=
  match m with
  | Ret a => f a
  | Throw e => Throw e
  | Get k => Get (fun w => bind (k w) f)
  | Put w k => Put w (bind k f)
  | Await pr k => Await pr (fun s => bind (k s) f)
  end.

(** [try { body } catch (error) { handler error }] *)
Fixpoint try_catch {A : Type} (body : js A) (handler : string -> js A) : js A :=
  match body with
  | Ret a => Ret a
  | Throw e => handler e
  | Get k => Get (fun w => try_catch (k w) handler)
  | Put w k => Put w (try_catch k handler)
  | Await pr k => Await pr (fun s => try_catch (k s) handler)
  end.

Declare Scope js_scope.
Delimit Scope js_scope with js.
Bind Scope js_scope with js.
Notation "x <- m ;; k" := (bind m (fun x => k))
  (at level 61, m at next level, right associativity) : js_scope.
Notation "m ;; k" := (bind m (fun _ => k))
  (at level 61, right associativity) : js_scope.
Local Open Scope js_scope.

Definition get : js world := Get (fun w => Ret w).
Definition modify (f : world -> world) : js unit :=
  Get (fun w => Put (f w) (Ret tt)).
Definition emit (e : event) : js unit := modify (record e).

(** [await p] for a promise of the engine: suspend, then continue or
    rethrow. *)
Definition await_promise (pr : promise) : js unit :=
  Await pr (fun s => match s with
                     | Fulfilled => Ret tt
                     | Rejected e => Throw e
                     end).

(** [await f()] for an [async] function [f] of the component: the body
    of [f] runs in place, and the caller resumes one tick after [f]'s
    promise has settled. *)
Definition await {A : Type} (call : js A) : js A :=
  try_catch (a <- call ;; Await PResolved (fun _ => Ret a))
            (fun e => Await PResolved (fun _ => Throw e)).

(** [await e] for an expression [e] that is not a promise: [e] is
    evaluated in place, an exception it throws propagates at once, and
    the caller resumes one tick after it has returned. *)
Definition await_value {A : Type} (e : js A) : js A :=
  a <- e ;; Await PResolved (fun _ => Ret a).

Definition console_log (msg arg : string) : js unit := emit (ELog msg arg).
Definition console_error (msg arg : string) : js unit := emit (EError msg arg).

(** A member access on [videoRef.current]; on [null] it is a TypeError. *)
Definition with_video (f : HTMLVideoElement -> HTMLVideoElement) : js unit :=
  w <- get ;;
  match videoRef w with
  | Some v => modify (set_videoRef (Some (f v)))
  | None => Throw "TypeError: videoRef.current is null"
  end.

(** [videoRef.current.play()] as the component writes it, at both call
    sites: a statement of its own.  The promise the call returns is
    dropped: when the browser refuses the call, that promise rejects
    with nobody to handle it, and no code of the component learns of
    the refusal.  What is left of the call is the call itself, [EPlay]
    in the trace, and the state of the element, [after_play]. *)
Definition video_play : js unit :=
  with_video after_play ;; emit EPlay.
Definition video_pause : js unit :=
  with_video (fun v => mkVideo (el_volume v) true (el_play_refused v)) ;;
  emit EPause.
Definition video_set_volume (q : Q) : js unit :=
  with_video (fun v => mkVideo q (el_paused v) (el_play_refused v)).

Definition setIsPlaying (b : bool) : js unit := modify (set_isPlaying b).
Definition setVolume (q : Q) : js unit := modify (set_volume q).
Definition setShowControls (b : bool) : js unit := modify (set_showControls b).
Definition setIsMuted (b : bool) : js unit := modify (set_isMuted b).

(** ** Engine calls *)

Definition player_destroy (p : player) : js unit :=
  emit (EDestroyCall p) ;; await_promise (PDestroy p).

Definition player_load (p : player) (u : string) : js unit :=
  emit (ELoadCall p u) ;; await_promise (PLoad p u).

Definition player_configure (sh : Shaka) (p : player) (c : config) : js unit :=
  emit (EConfigure p c) ;;
  match configure_throws sh c with
  | Some e => Throw e
  | None => Ret tt
  end.

(** [new shaka.Player(videoRef.current)] *)
Definition new_Player : js player :=
  w <- get ;;
  let p := next_player w in
  modify (set_next_player (S p)) ;;
  emit (EConstruct p (match videoRef w with Some _ => true | None => false end)) ;;
  Ret p.

(** ** String.prototype.split on a one-character separator *)

Fixpoint split (sep : ascii) (s : string) : list string :=
  match s with
  | EmptyString => [EmptyString]
  | String c rest =>
      if Ascii.eqb c sep then EmptyString :: split sep rest
      else match split sep rest with
           | first :: others => String c first :: others
           | [] => [String c EmptyString]
           end
  end.

(** [const [keyId, key] = drmKey.split(':')] followed by the object
    literal [{ [keyId]: key }]: a missing element is [undefined]. *)
Definition clearKeys_of (drmKey : string) : list (string * option string) :=
  let parts := split ":" drmKey in
  [(hd "undefined" parts, nth_error parts 1)].

Definition drm_retry : RetryParameters := mkRetry 5 1000 2 None.

Definition playback_config : config :=
  PlaybackConfig
    (mkAbr true 1000000 1 (85 # 100) (95 # 100))
    (mkStreaming 10 2 (mkRetry 5 1000 2 (Some 30000%Z))).

(** JavaScript truthiness of an optional string. *)
Definition truthy (s : option string) : option string :=
  match s with
  | Some EmptyString => None
  | other => other
  end.

(** ** VideoPlayer.tsx *)

Definition destroyPlayer : js unit :=
  w <- get ;;
  match shakaPlayerRef w with
  | Some p =>
      try_catch
        (player_destroy p ;;
         modify (set_shakaPlayerRef None))
        (fun error => console_error "Error destroying player:" error)
  | None => Ret tt
  end.

Definition initPlayer (channel : Channel) : js unit :=
  try_catch
    (w <- get ;;
     match videoRef w, window_shaka w with
     | Some _, Some shaka =>
         emit EInstallAll ;;
         (if isBrowserSupported shaka then Ret tt
          else Throw "Browser not supported!") ;;
         await destroyPlayer ;;
         p <- new_Player ;;
         modify (set_shakaPlayerRef (Some p)) ;;
         player_configure shaka p playback_config ;;
         emit (EAddErrorListener p) ;;
         match truthy (drmKey channel) with
         | Some k =>
             console_log "Configuring DRM with key:" k ;;
             await_value
               (player_configure shaka p (DrmConfig (clearKeys_of k) drm_retry))
         | None => Ret tt
         end ;;
         console_log "Loading URL:" (url channel) ;;
         try_catch
           (player_load p (url channel) ;;
            console_log "Video loaded successfully" "" ;;
            w' <- get ;;
            match videoRef w' with
            | Some _ => video_play ;; setIsPlaying true
            | None => Ret tt
            end)
           (fun error => console_error "Error loading video:" error)
     | _, _ => Ret tt
     end)
    (fun error => console_error "Error initializing player:" error).

Definition initNewChannel (channel : Channel) : js unit :=
  await destroyPlayer ;;
  await (initPlayer channel).

(** The effect on [[volume]]. *)
Definition volume_effect : js unit :=
  w <- get ;;
  match videoRef w with
  | Some _ =>
      video_set_volume (volume w) ;;
      setIsMuted (Qeq_bool (volume w) 0)
  | None => Ret tt
  end.

Definition togglePlay : js unit :=
  w <- get ;;
  match videoRef w with
  | None => Ret tt
  | Some _ =>
      (if isPlaying w then video_pause else video_play) ;;
      setIsPlaying (negb (isPlaying w))
  end.

Definition toggleMute : js unit :=
  w <- get ;;
  match videoRef w with
  | None => Ret tt
  | Some _ =>
      (if isMuted w
       then setVolume 1 ;; video_set_volume 1
       else setVolume 0 ;; video_set_volume 0) ;;
      setIsMuted (negb (isMuted w))
  end.

(** The slider's [onValueChange]: [value[0]] is the slider position. *)
Definition onValueChange (value0 : Z) : js unit :=
  setVolume (Qred (inject_Z value0 / 100)).

(** ** Running component code *)

Inductive status (A : Type) : Type :=
| Finished (a : A)
| Failed (error : string)
| Suspended (pr : promise) (k : settled -> js A).

Arguments Finished {A} a.
Arguments Failed {A} error.
Arguments Suspended {A} pr k.

(** Run synchronously up to the next suspension point. *)
Fixpoint run {A : Type} (m : js A) (w : world) : world * status A :=
  match m with
  | Ret a => (w, Finished a)
  | Throw e => (w, Failed e)
  | Get k => run (k w) w
  | Put w' k => run k w'
  | Await pr k => (w, Suspended pr k)
  end.

(** ** Scheduler

    The environment of the component: the engine settles the promises
    the suspended [async] functions wait for, and React re-renders or
    unmounts the component. *)

(** Promises of the engine leave a mark in the trace when they settle. *)
Definition note_settled (pr : promise) (s : settled) (w : world) : world :=
  match pr with
  | PResolved => w
  | _ => record (ESettled pr s) w
  end.

(** One [async] call alone: the promises it awaits are settled in turn
    with the outcomes [ss]. *)
Fixpoint drive_status {A : Type} (ss : list settled) (w : world)
         (st : status A) : world * status A :=
  match ss, st with
  | s :: ss', Suspended pr k =>
      let (w', st') := run (k s) (note_settled pr s w) in
      drive_status ss' w' st'
  | _, _ => (w, st)
  end.

Definition drive {A : Type} (ss : list settled) (m : js A) (w : world)
  : world * status A :=
  let (w', st) := run m w in drive_status ss w' st.

(** A suspended [async] call. *)
Record task : Type := mkTask {
  awaited : promise;
  continuation : settled -> js unit
}.

(** The component and the calls in flight; a finished call leaves an
    empty slot, so that a call keeps its index. *)
Record system : Type := mkSystem {
  state : world;
  pool : list (option task)
}.

Definition park (st : status unit) (w : world) : world * option task :=
  match st with
  | Finished _ => (w, None)
  | Failed e => (record (EUnhandledRejection e) w, None)
  | Suspended pr k => (w, Some (mkTask pr k))
  end.

(** A call whose promise nobody awaits: [destroyPlayer()] in the effect
    cleanup, [initNewChannel()] in the effect. *)
Definition spawn (m : js unit) (sys : system) : system :=
  let (w, st) := run m (state sys) in
  let (w', slot) := park st w in
  mkSystem w' (pool sys ++ [slot]).

Fixpoint replace {A : Type} (i : nat) (x : A) (l : list A) : list A :=
  match l, i with
  | [], _ => []
  | _ :: rest, O => x :: rest
  | y :: rest, S i' => y :: replace i' x rest
  end.

Definition settle (i : nat) (s : settled) (sys : system) : system :=
  match nth_error (pool sys) i with
  | Some (Some t) =>
      let (w, st) :=
        run (continuation t s) (note_settled (awaited t) s (state sys)) in
      let (w', slot) := park st w in
      mkSystem w' (replace i slot (pool sys))
  | _ => sys
  end.

Inductive happening : Type :=
| Settle (i : nat) (s : settled)     (* the promise call [i] awaits settles *)
| ChannelChange (c : Channel)        (* re-render with a new [channel] prop *)
| ScriptOnload (sh : Shaka) (c0 : Channel)
                                     (* the engine script has loaded; its
                                        handler is the first render's
                                        [initPlayer] *)
| Unmount.

(** The effect on [[channel]]: the previous cleanup, then the new effect. *)
Definition step (h : happening) (sys : system) : system :=
  match h with
  | Settle i s => settle i s sys
  | ChannelChange c => spawn (initNewChannel c) (spawn destroyPlayer sys)
  | ScriptOnload sh c0 =>
      spawn (initPlayer c0)
            (mkSystem (set_window_shaka (Some sh) (state sys)) (pool sys))
  | Unmount =>
      spawn destroyPlayer
            (mkSystem (set_videoRef None (state sys)) (pool sys))
  end.

Definition schedule (hs : list happening) (sys : system) : system :=
  fold_left (fun s h => step h s) hs sys.

(** The component once React has attached the video element, before any
    effect has run: the [useState] and [useRef] initial values. *)
Definition initial (v : HTMLVideoElement) (sh : option Shaka) : world :=
  mkWorld (Some v) None true 1%Q false false sh 0%nat [].

(** The effects of the first commit that matter here, in source order. *)
Definition mount (c0 : Channel) (v : HTMLVideoElement) (sh : option Shaka)
  : system :=
  spawn (initNewChannel c0)
        (mkSystem (fst (run volume_effect (initial v sh))) []).

(** ** Reading a trace *)

(** The engine instances attached to the video element and not yet
    destroyed, oldest first, from the events in the order they happened. *)
Fixpoint live_from (acc : list player) (tr : list event) : list player :=
  match tr with
  | [] => acc
  | EConstruct p true :: rest => live_from (acc ++ [p]) rest
  | ESettled (PDestroy p) Fulfilled :: rest =>
      live_from (filter (fun q => negb (Nat.eqb q p)) acc) rest
  | _ :: rest => live_from acc rest
  end.

Definition live (w : world) : list player := live_from [] (history w).

(** ** User interactions *)

(** A commit after an event handler: the effect on [[volume]] runs again
    when the volume differs from the one of the previous render. *)
Definition rerender (previous : Q) : js unit :=
  w <- get ;;
  if Qeq_bool previous (volume w) then Ret tt else volume_effect.

Inductive interaction : Type :=
| ClickPlay
| ClickMute
| Slide (value0 : Z)
| MouseEnter
| MouseLeave.

Definition handler (i : interaction) : js unit :=
  match i with
  | ClickPlay => togglePlay
  | ClickMute => toggleMute
  | Slide value0 => onValueChange value0
  | MouseEnter => setShowControls true
  | MouseLeave => setShowControls false
  end.

Definition interact_status (i : interaction) (w : world) : world * status unit :=
  run (handler i ;; rerender (volume w)) w.

Definition interact (i : interaction) (w : world) : world :=
  fst (interact_status i w).

Definition interactions (l : list interaction) (w : world) : world :=
  fold_left (fun w' i => interact i w') l w.

(** ** Predicates on states, key strings and traces *)

(** The muted flag says whether the volume is zero. *)
Definition muted_agrees (w : world) : Prop :=
  isMuted w = Qeq_bool (volume w) 0.

Definition bound (w : world) : Prop := exists v, videoRef w = Some v.

(** The video element is bound and the engine is present and supported. *)
Definition usableb (w : world) : bool :=
  match videoRef w, window_shaka w with
  | Some _, Some sh => isBrowserSupported sh
  | _, _ => false
  end.

Fixpoint has_colon (s : string) : bool :=
  match s with
  | EmptyString => false
  | String c rest => Ascii.eqb c ":" || has_colon rest
  end.

(** Every call of [load] in a trace (newest first) is for the URL [u] and
    comes after a call of [configure] with the options [c] on the same
    engine instance. *)
Fixpoint loads_follow_configure (c : config) (u : string)
         (newest_first : list event) : Prop :=
  match newest_first with
  | [] => True
  | ELoadCall p u' :: older =>
      u' = u /\ In (EConfigure p c) older /\ loads_follow_configure c u older
  | _ :: older => loads_follow_configure c u older
  end.

(** In a trace (newest first): every construction of an engine instance
    comes after a fulfilled destroy of [p0]. *)
Fixpoint constructs_follow_destroy (p0 : player) (newest_first : list event)
  : Prop :=
  match newest_first with
  | [] => True
  | EConstruct _ _ :: older =>
      In (ESettled (PDestroy p0) Fulfilled) older
      /\ constructs_follow_destroy p0 older
  | _ :: older => constructs_follow_destroy p0 older
  end.

Definition is_construct (e : event) : bool :=
  match e with
  | EConstruct _ _ => true
  | _ => false
  end.

Definition constructions (l : list event) : nat :=
  List.length (filter is_construct l).

(** ** Settlements after a channel change *)

(** The settlements that take [initPlayer] past its teardown of the
    previous session, whose destroy settles with [s], up to the
    construction of the new engine instance. *)
Definition past_teardown (w : world) (s : settled) : list settled :=
  match shakaPlayerRef w with
  | Some _ => [s; Fulfilled]
  | None => [Fulfilled]
  end.

(** A channel change while no call is in flight. *)
Definition change_of_channel (channel : Channel) (w : world) : system :=
  step (ChannelChange channel) (mkSystem w []).

(** Settlements only: no further re-render or unmount. *)
Definition settles (hs : list (nat * settled)) (sys : system) : system :=
  fold_left (fun s h => settle (fst h) (snd h) s) hs sys.

(** The outcome [s] for call [i] is not the rejection of a destroy. *)
Definition destroy_fulfils (sys : system) (i : nat) (s : settled) : Prop :=
  match nth_error (pool sys) i, s with
  | Some (Some (mkTask (PDestroy _) _)), Rejected _ => False
  | _, _ => True
  end.

Fixpoint destroys_fulfil (hs : list (nat * settled)) (sys : system) : Prop :=
  match hs with
  | [] => True
  | (i, s) :: rest =>
      destroy_fulfils sys i s /\ destroys_fulfil rest (settle i s sys)
  end.

(** Since the trace [tr0]: at most one engine instance was constructed,
    after a fulfilled destroy of [p0]; exactly one once call 1, the
    [initNewChannel] of the change, has returned in a [ready]
    environment. *)
Definition orderly (p0 : player) (ready : bool) (tr0 : list event)
           (sys : system) : Prop :=
  exists evs,
    trace (state sys) = evs ++ tr0
    /\ constructs_follow_destroy p0 evs
    /\ (constructions evs <= 1)%nat
    /\ (ready = true -> nth_error (pool sys) 1 = Some None ->
        constructions evs = 1%nat).

(** [P] holds of [sys] and of everything reachable from it in at most
    [n] settlements that change the system. *)
Fixpoint explored (P : system -> Prop) (n : nat) (sys : system) : Prop :=
  P sys
  /\ forall i s,
      destroy_fulfils sys i s ->
      settle i s sys = sys
      \/ match n with
         | O => False
         | S n' => explored P n' (settle i s sys)
         end.

(** ** Sample states, channels and schedules *)

Definition always_accepts : Shaka := mkShaka true (fun _ => None).

(** Mounted, engine script not loaded yet. *)
Definition idle_world : world :=
  mkWorld (Some (mkVideo 1 false None)) None true 1 false false None 0%nat [].

(** No video element. *)
Definition unbound_world : world :=
  mkWorld None None true (1 # 2) false false None 0%nat [].

(** Engine loaded, no session yet. *)
Definition engine_world : world :=
  mkWorld (Some (mkVideo 1 false None)) None true 1 false false
          (Some always_accepts) 0%nat [].

(** Engine loaded, no session, playback paused by the user. *)
Definition paused_world : world :=
  mkWorld (Some (mkVideo 1 true None)) None false 1 false false
          (Some always_accepts) 0%nat [].

(** Engine loaded, no session; the element is paused and the browser
    refuses [play()] on it. *)
Definition autoplay_blocked_world : world :=
  mkWorld (Some (mkVideo 1 true (Some "NotAllowedError"))) None true 1
          false false (Some always_accepts) 0%nat [].

(** A session, engine instance 0, is attached. *)
Definition session_world : world :=
  mkWorld (Some (mkVideo 1 false None)) (Some 0%nat) true 1 false false
          (Some always_accepts) 1%nat [EConstruct 0%nat true].

Definition malformed_channel : Channel :=
  mkChannel "7" "Seven" "https://example/manifest.mpd" (Some "abc123").

Definition scenario_channel : Channel :=
  mkChannel "1" "One" "https://example/manifest.mpd" (Some "k1:v1").

Definition plain_channel : Channel :=
  mkChannel "2" "Two" "https://example/two.mpd" None.

Definition channel_A : Channel :=
  mkChannel "a" "A" "https://example/a.mpd" None.

Definition channel_B : Channel :=
  mkChannel "b" "B" "https://example/b.mpd" None.

(** The channel is selected while playback is paused; the component is
    unmounted while the load is pending; the load fulfils. *)
Definition unmounted_during_load : system :=
  schedule [ChannelChange plain_channel;
            Settle 1 Fulfilled; Settle 1 Fulfilled;
            Unmount;
            Settle 1 Fulfilled]
           (mkSystem paused_world []).

(** The component is mounted, with the engine script already loaded,
    where the browser refuses [play()]; the load of the first channel
    fulfils, and [initNewChannel] returns. *)
Definition play_refused_after_load : system :=
  schedule [Settle 0 Fulfilled; Settle 0 Fulfilled;
            Settle 0 Fulfilled; Settle 0 Fulfilled]
           (mount plain_channel (mkVideo 1 true (Some "NotAllowedError"))
                  (Some always_accepts)).

(** A session plays; the user moves to channel A and on to channel B
    before the engine has finished destroying the old session.  The
    engine then fulfils, in order, the four destroy calls made on the old
    session; both [initNewChannel] calls go on to construct an engine
    instance; both loads fulfil, and both calls return. *)
Definition rapid_changes : system :=
  schedule [ChannelChange channel_A; ChannelChange channel_B;
            Settle 0 Fulfilled; Settle 1 Fulfilled;
            Settle 2 Fulfilled; Settle 3 Fulfilled;
            Settle 1 Fulfilled; Settle 3 Fulfilled;
            Settle 1 Fulfilled; Settle 3 Fulfilled;
            Settle 1 Fulfilled; Settle 3 Fulfilled;
            Settle 1 Fulfilled; Settle 3 Fulfilled]
           (mkSystem session_world []).

(** One channel change; the cleanup's destroy settles first, the load
    is rejected. *)
Definition settled_in_turn : list (nat * settled) :=
  [(0%nat, Fulfilled); (1%nat, Fulfilled); (1%nat, Fulfilled);
   (1%nat, Fulfilled); (1%nat, Rejected "404"); (1%nat, Fulfilled)].

(** * ChannelControls.tsx *)

Module Overlay.

Set Warnings "-register-all".

Inductive icon : Type :=
| ChevronLeft
| ChevronRight
| ListIcon.

(** The rendered tree; [H] is the type of the callbacks. *)
Inductive vnode (H : Type) : Type :=
| Div (className : string) (children : list (vnode H))
| Span (className : string) (text : string)
| Button (variant size className : string) (onClick : H)
         (children : list (vnode H))
| Icon (name : icon) (className : string).

Arguments Div {H} className children.
Arguments Span {H} className text.
Arguments Button {H} variant size className onClick children.
Arguments Icon {H} name className.

Record ChannelControlsProps (H : Type) : Type := mkProps {
  onPrevious : H;
  onNext : H;
  onShowChannels : H;
  channelName : string
}.

Arguments mkProps {H} onPrevious onNext onShowChannels channelName.
Arguments onPrevious {H} _.
Arguments onNext {H} _.
Arguments onShowChannels {H} _.
Arguments channelName {H} _.

(** The component returns a fragment: a list of nodes. *)
Definition ChannelControls {H : Type} (props : ChannelControlsProps H)
  : list (vnode H) :=
  [ Div "absolute top-4 right-4 z-40 flex items-center gap-2 bg-black/60 px-4 py-2 rounded-lg animate-fade-in"
        [ Span "text-white font-medium" (channelName props) ];
    Div "absolute inset-x-0 top-1/2 -translate-y-1/2 z-40 flex justify-between px-4"
        [ Button "ghost" "icon" "bg-black/60 hover:bg-black/80 text-white"
                 (onPrevious props)
                 [ Icon ChevronLeft "h-8 w-8" ];
          Button "ghost" "icon" "bg-black/60 hover:bg-black/80 text-white"
                 (onNext props)
                 [ Icon ChevronRight "h-8 w-8" ] ];
    Div "absolute bottom-4 right-4 z-40"
        [ Button "ghost" "icon" "bg-black/60 hover:bg-black/80 text-white"
                 (onShowChannels props)
                 [ Icon ListIcon "h-5 w-5" ] ] ].

(** The callbacks a tree can dispatch, in document order. *)
Fixpoint dispatched {H : Type} (n : vnode H) : list H :=
  match n with
  | Div _ children => flat_map dispatched children
  | Button _ _ _ onClick children => onClick :: flat_map dispatched children
  | Span _ _ => []
  | Icon _ _ => []
  end.

(** The texts a tree shows, in document order. *)
Fixpoint texts {H : Type} (n : vnode H) : list string :=
  match n with
  | Div _ children => flat_map texts children
  | Button _ _ _ _ children => flat_map texts children
  | Span _ text => [text]
  | Icon _ _ => []
  end.

(** The visual output: the tree with its callbacks erased. *)
Fixpoint visual {H : Type} (n : vnode H) : vnode unit :=
  match n with
  | Div c children => Div c (map visual children)
  | Button v s c _ children => Button v s c tt (map visual children)
  | Span c text => Span c text
  | Icon i c => Icon i c
  end.

(** The overlay in the words of the spec: a function of the channel
    name, the playing flag, the muted flag and the volume, with six
    outbound callbacks. *)
Record SpecInputs (H : Type) : Type := mkSpecInputs {
  spec_channelName : string;
  spec_playing : bool;
  spec_muted : bool;
  spec_volume : Q;
  spec_onPrevious : H;
  spec_onNext : H;
  spec_onShowChannels : H;
  spec_onTogglePlay : H;
  spec_onToggleMute : H;
  spec_onVolumeChange : H
}.

Arguments spec_channelName {H} _.
Arguments spec_onPrevious {H} _.
Arguments spec_onNext {H} _.
Arguments spec_onShowChannels {H} _.
Arguments spec_onTogglePlay {H} _.
Arguments spec_onToggleMute {H} _.
Arguments spec_onVolumeChange {H} _.

Definition spec_callbacks {H : Type} (i : SpecInputs H) : list H :=
  [spec_onPrevious i; spec_onNext i; spec_onShowChannels i;
   spec_onTogglePlay i; spec_onToggleMute i; spec_onVolumeChange i].

(** The props the component takes are the part of these inputs that
    [ChannelControlsProps] has a field for. *)
Definition props_of {H : Type} (i : SpecInputs H) : ChannelControlsProps H :=
  mkProps (spec_onPrevious i) (spec_onNext i) (spec_onShowChannels i)
          (spec_channelName i).

Definition sample_inputs (playing muted : bool) (vol : Q) : SpecInputs string :=
  mkSpecInputs string "News" playing muted vol
               "onPrevious" "onNext" "onShowChannels"
               "onTogglePlay" "onToggleMute" "onVolumeChange".

End Overlay.


(** * Further predicates *)

(** The video element's [volume] attribute is the volume state. *)
Definition volume_agrees (w : world) : Prop :=
  match videoRef w with
  | Some v => el_volume v == volume w
  | None => True
  end.

(** The slider has [max={100}] and the default minimum 0. *)
Definition on_slider_track (i : interaction) : Prop :=
  match i with
  | Slide value0 => (0 <= value0 <= 100)%Z
  | _ => True
  end.

(** Events on the video element, as opposed to the engine and console. *)
Definition is_video_event (e : event) : Prop :=
  match e with
  | EPlay | EPause => True
  | _ => False
  end.

Definition is_load_call (e : event) : bool :=
  match e with
  | ELoadCall _ _ => true
  | _ => false
  end.

Definition load_calls (l : list event) : nat :=
  List.length (filter is_load_call l).

(** The engine is present but does not support the browser; a session
    is referenced. *)
Definition unsupported_world : world :=
  mkWorld (Some (mkVideo 1 false None)) (Some 0%nat) true 1 false false
          (Some (mkShaka false (fun _ => None))) 1%nat [].

(** The engine refuses every configuration. *)
Definition refusing_world : world :=
  mkWorld (Some (mkVideo 1 false None)) None true 1 false false
          (Some (mkShaka true (fun _ => Some "invalid configuration")))
          0%nat [].

(** The extra tick initialize takes when the channel has a DRM key. *)
Definition drm_tick (channel : Channel) : list settled :=
  match truthy (drmKey channel) with
  | Some _ => [Fulfilled]
  | None => []
  end.

(** Where a channel change from the state [w0] to a channel with URL [u]
    has got to once both of its calls have returned. *)
Definition change_settled (w0 : world) (u : string) (sys : system) : Prop :=
  pool sys = [None; None] ->
  (shakaPlayerRef (state sys) = None
   \/ shakaPlayerRef (state sys) = Some (next_player w0))
  /\ exists evs,
      trace (state sys) = evs ++ trace w0
      /\ (In (ESettled (PLoad (next_player w0) u) Fulfilled) evs ->
          isPlaying (state sys) = true
          /\ In EPlay evs
          /\ videoRef (state sys) = option_map after_play (videoRef w0))
      /\ (forall e,
            In (ESettled (PLoad (next_player w0) u) (Rejected e)) evs ->
            isPlaying (state sys) = isPlaying w0
            /\ In (EError "Error loading video:" e) evs
            /\ ~ In EPlay evs
            /\ videoRef (state sys) = videoRef w0).

(** The lifecycle functions have left the volume controls, the element's
    volume and the engine global as they were. *)
Definition same_controls (w w' : world) : Prop :=
  volume w' = volume w
  /\ isMuted w' = isMuted w
  /\ showControls w' = showControls w
  /\ option_map el_volume (videoRef w') = option_map el_volume (videoRef w)
  /\ window_shaka w' = window_shaka w.

(** Engine loaded, volume at 40%. *)
Definition quiet_world : world :=
  mkWorld (Some (mkVideo (2 # 5) false None)) None true (2 # 5) false false
          (Some always_accepts) 0%nat [].

(** * Properties *)

Import Overlay.

(** Open the world record and let the hypotheses on its fields decide
    the branches of the code. *)
Ltac open_world w :=
  let vr := fresh "vr" in let spr := fresh "spr" in
  let playing := fresh "playing" in let vol := fresh "vol" in
  let ctl := fresh "ctl" in let muted := fresh "muted" in
  let wsh := fresh "wsh" in let np := fresh "np" in let tr := fresh "tr" in
  destruct w as [vr spr playing vol ctl muted wsh np tr];
  cbn [videoRef shakaPlayerRef isPlaying volume showControls isMuted
       window_shaka next_player trace] in *;
  subst.

(** Symbolic execution of component code: split on the choices that
    are left to the environment or to the channel. *)
Ltac split_branch :=
  match goal with
  | |- context [match ?x with Some _ => _ | None => _ end] => destruct x eqn:?
  | |- context [match ?x with Fulfilled => _ | Rejected _ => _ end] => destruct x
  end.

(** The same on an equation [H : run ... = (w', st)]. *)
Ltac split_branch_in H :=
  match type of H with
  | context [match ?x with Some _ => _ | None => _ end] => destruct x eqn:?
  | context [match ?x with Fulfilled => _ | Rejected _ => _ end] => destruct x
  | context [match ?x with [] => _ | _ :: _ => _ end] => destruct x
  | context [if ?b then _ else _] => destruct b eqn:?
  end.

Ltac symex_in H := repeat (vm_compute in H; try split_branch_in H).

(** The events of [l] that are newer than the trace [tr]. *)
Ltac new_events tr l :=
  lazymatch l with
  | tr => constr:(@nil event)
  | ?e :: ?l' => let r := new_events tr l' in constr:(e :: r)
  end.

(** Membership in an explicit list of events, and its refutation when
    no element has the right head constructor. *)
Ltac find_in :=
  unfold In;
  repeat match goal with
         | |- ?a = ?b \/ _ => first [constr_eq a b; left; exact eq_refl | right]
         end.

Ltac not_in H :=
  unfold In in H;
  repeat (destruct H as [H|H]; [congruence|]);
  exact H.

(** ** destroyPlayer *)

Lemma destroyPlayer_suspends (w : world) (p : player) :
  shakaPlayerRef w = Some p ->
  exists k, run destroyPlayer w = (record (EDestroyCall p) w, Suspended (PDestroy p) k).
Proof.
  intros Hp. open_world w. cbn. eexists. reflexivity.
Qed.

(** C8. Calling destroy when no session exists (the session reference is
    null) is a no-op: it completes at once, without an error, and leaves
    every part of the state, the trace included, as it was. *)
Theorem destroyPlayer_without_session_is_noop (w : world) :
  shakaPlayerRef w = None ->
  run destroyPlayer w = (w, Finished tt)
  /\ (forall ss, drive ss destroyPlayer w = (w, Finished tt))
  /\ state (spawn destroyPlayer (mkSystem w [])) = w.
Proof.
  intros Hnone. open_world w.
  split; [reflexivity|]. split; [|reflexivity].
  intros ss. destruct ss; reflexivity.
Qed.

Lemma destroyPlayer_without_session_is_noop_witness :
  shakaPlayerRef idle_world = None
  /\ run destroyPlayer idle_world = (idle_world, Finished tt)
  /\ (forall ss, drive ss destroyPlayer idle_world = (idle_world, Finished tt))
  /\ state (spawn destroyPlayer (mkSystem idle_world [])) = idle_world.
Proof.
  split; [reflexivity|].
  apply (destroyPlayer_without_session_is_noop idle_world). reflexivity.
Defined.

(** ** togglePlay and toggleMute without a video element *)

(** C10. With no video element bound ([videoRef.current] is null),
    [togglePlay] and [toggleMute] complete normally and change nothing:
    the playing flag, the muted flag and the volume keep their values,
    also after the commit that follows the click. *)
Theorem toggles_without_video_are_noops (w : world) :
  videoRef w = None ->
  run togglePlay w = (w, Finished tt)
  /\ run toggleMute w = (w, Finished tt)
  /\ interact_status ClickPlay w = (w, Finished tt)
  /\ interact_status ClickMute w = (w, Finished tt).
Proof.
  intros Hnone. open_world w.
  split; [reflexivity|]. split; [reflexivity|].
  unfold interact_status.
  split; cbn -[Qeq_bool]; rewrite Qeq_bool_refl; reflexivity.
Qed.

Lemma toggles_without_video_are_noops_witness :
  videoRef unbound_world = None
  /\ run togglePlay unbound_world = (unbound_world, Finished tt)
  /\ run toggleMute unbound_world = (unbound_world, Finished tt)
  /\ interact_status ClickPlay unbound_world = (unbound_world, Finished tt)
  /\ interact_status ClickMute unbound_world = (unbound_world, Finished tt).
Proof.
  split; [reflexivity|].
  apply (toggles_without_video_are_noops unbound_world). reflexivity.
Defined.

(** ** destroyPlayer with a session *)

(** C1, as stated, fails: when the engine's destroy rejects, the session
    reference is not cleared. *)
Lemma failed_destroy_keeps_reference :
  shakaPlayerRef
    (fst (drive [Rejected "teardown failed"] destroyPlayer session_world))
  = Some 0%nat.
Proof. vm_compute. reflexivity. Qed.

(** C1, amended.  While a session [p] exists, destroy calls the engine's
    destroy on it and completes normally whatever the outcome.  When the
    engine's destroy fulfils, the session reference is cleared.  When it
    rejects, the failure is logged, no exception propagates, and the
    reference still holds [p]; a later initialize is not blocked by it:
    it constructs a new engine instance and stores that one in the
    reference. *)
Theorem destroyPlayer_with_session (w : world) (p : player) :
  shakaPlayerRef w = Some p ->
  drive [Fulfilled] destroyPlayer w
  = (set_shakaPlayerRef None
       (record (ESettled (PDestroy p) Fulfilled) (record (EDestroyCall p) w)),
     Finished tt)
  /\ forall e,
      let w' := record (EError "Error destroying player:" e)
                  (record (ESettled (PDestroy p) (Rejected e))
                     (record (EDestroyCall p) w)) in
      drive [Rejected e] destroyPlayer w = (w', Finished tt)
      /\ shakaPlayerRef w' = Some p
      /\ (usableb w = true ->
          forall channel s,
            let w'' := fst (drive [s; Fulfilled] (initPlayer channel) w') in
            shakaPlayerRef w'' = Some (next_player w)
            /\ In (EConstruct (next_player w) true) (trace w'')).
Proof.
  intros Hp. open_world w. split; [vm_compute; reflexivity|].
  intros e. cbv zeta. split; [vm_compute; reflexivity|].
  split; [reflexivity|].
  intros Hready channel s. cbn in Hready.
  destruct vr as [v|]; [|discriminate Hready].
  destruct wsh as [[sup thr]|]; [|discriminate Hready].
  cbn in Hready. subst sup.
  match goal with
  | |- context [drive ?ss ?m ?w0] => destruct (drive ss m w0) as [w2 st] eqn:Hrun
  end.
  symex_in Hrun; injection Hrun as <- <-; vm_compute;
    (split; [exact eq_refl|find_in]).
Qed.

Lemma destroyPlayer_with_session_witness :
  shakaPlayerRef session_world = Some 0%nat
  /\ drive [Fulfilled] destroyPlayer session_world
     = (set_shakaPlayerRef None
          (record (ESettled (PDestroy 0%nat) Fulfilled)
                  (record (EDestroyCall 0%nat) session_world)),
        Finished tt)
  /\ shakaPlayerRef
       (fst (drive [Rejected "again"; Fulfilled]
                   (initPlayer plain_channel)
                   (fst (drive [Rejected "teardown failed"] destroyPlayer
                               session_world))))
     = Some 1%nat.
Proof.
  split; [reflexivity|].
  destruct (destroyPlayer_with_session session_world 0%nat eq_refl)
    as [Hok Hfail].
  split; [exact Hok|].
  destruct (Hfail "teardown failed") as [Hrun [_ Hnext]].
  rewrite Hrun.
  exact (proj1 (Hnext eq_refl plain_channel (Rejected "again"))).
Defined.

(** ** Volume and mute *)

Lemma Qeq_bool_zero_compat (a b : Q) :
  Qeq_bool a b = true -> Qeq_bool a 0 = Qeq_bool b 0.
Proof.
  intros Hab. apply Qeq_bool_iff in Hab.
  destruct (Qeq_bool a 0) eqn:Ha, (Qeq_bool b 0) eqn:Hb; try reflexivity.
  - apply Qeq_bool_iff in Ha. apply Qeq_bool_neq in Hb.
    exfalso. apply Hb. rewrite <- Hab. exact Ha.
  - apply Qeq_bool_iff in Hb. apply Qeq_bool_neq in Ha.
    exfalso. apply Ha. rewrite Hab. exact Hb.
Qed.

Ltac ui_symex := cbn -[Qeq_bool Qred Qdiv inject_Z after_play].

Lemma volume_effect_establishes (w : world) :
  bound w -> let w' := fst (run volume_effect w) in bound w' /\ muted_agrees w'.
Proof.
  intros [v Hv]. open_world w. ui_symex. split; [eexists|]; reflexivity.
Qed.

Lemma interact_preserves (i : interaction) (w : world) :
  bound w -> muted_agrees w ->
  bound (interact i w) /\ muted_agrees (interact i w)
  /\ snd (interact_status i w) = Finished tt.
Proof.
  intros [v Hv] Hm. unfold muted_agrees in *. open_world w.
  unfold interact, interact_status.
  destruct i; ui_symex.
  - destruct playing; ui_symex; rewrite Qeq_bool_refl; ui_symex;
      (split; [eexists; reflexivity|]); split; reflexivity.
  - destruct (Qeq_bool vol 0) eqn:Hz; ui_symex.
    + destruct (Qeq_bool vol 1) eqn:H1; ui_symex;
        (split; [eexists; reflexivity|]); split; reflexivity.
    + rewrite Hz. ui_symex.
      (split; [eexists; reflexivity|]); split; reflexivity.
  - destruct (Qeq_bool vol (Qred (inject_Z value0 / 100))) eqn:Hsame; ui_symex.
    + split; [eexists; reflexivity|]. split; [|reflexivity].
      apply Qeq_bool_zero_compat. exact Hsame.
    + split; [eexists; reflexivity|]. split; reflexivity.
  - rewrite Qeq_bool_refl. ui_symex.
    split; [eexists; reflexivity|]. split; reflexivity.
  - rewrite Qeq_bool_refl. ui_symex.
    split; [eexists; reflexivity|]. split; reflexivity.
Qed.

Lemma interactions_preserve (l : list interaction) (w : world) :
  bound w -> muted_agrees w ->
  bound (interactions l w) /\ muted_agrees (interactions l w).
Proof.
  revert w. induction l as [|i l IH]; intros w Hb Hm.
  - split; assumption.
  - cbn. destruct (interact_preserves i w Hb Hm) as [Hb' [Hm' _]].
    apply IH; assumption.
Qed.

(** C5.  The component renders its video element unconditionally, so
    the element is bound from the first commit on, when the effect on
    the volume runs.  In every state the component then reaches by
    clicks, hovers and slider moves, volume 0 goes with muted = true;
    moving the slider to 0 results in volume 0 and muted = true; and
    toggling mute while muted sets the volume (state and element) to
    exactly 1, whatever level was held before muting, and clears the
    muted flag. *)
Theorem volume_zero_means_muted
        (w0 : world) (v : HTMLVideoElement) (l : list interaction) :
  videoRef w0 = Some v ->
  let w := interactions l (fst (run volume_effect w0)) in
  (Qeq_bool (volume w) 0 = true -> isMuted w = true)
  /\ (volume (interact (Slide 0) w) = 0
      /\ isMuted (interact (Slide 0) w) = true)
  /\ (isMuted w = true ->
      volume (interact ClickMute w) = 1
      /\ option_map el_volume (videoRef (interact ClickMute w)) = Some 1
      /\ isMuted (interact ClickMute w) = false).
Proof.
  intros Hv w.
  assert (Hinv : bound w /\ muted_agrees w).
  { destruct (volume_effect_establishes w0) as [Hb Hm]; [eexists; eassumption|].
    apply interactions_preserve; assumption. }
  destruct Hinv as [[v' Hv'] Hm]. unfold muted_agrees in Hm.
  clearbody w. clear Hv. open_world w.
  split; [intros Hz; rewrite Hz; reflexivity|]. split.
  - unfold interact, interact_status. ui_symex.
    change (Qred (inject_Z 0 / 100)) with 0.
    destruct (Qeq_bool vol 0) eqn:Hz; ui_symex; split; reflexivity.
  - intros Hz. unfold interact, interact_status. ui_symex.
    rewrite Hz. ui_symex.
    destruct (Qeq_bool vol 1) eqn:H1; ui_symex; repeat split; reflexivity.
Qed.

Lemma volume_zero_means_muted_witness :
  videoRef idle_world = Some (mkVideo 1 false None)
  /\ volume (interact (Slide 0) (interactions [Slide 40; ClickPlay]
               (fst (run volume_effect idle_world)))) = 0
  /\ isMuted (interact (Slide 0) (interactions [Slide 40; ClickPlay]
               (fst (run volume_effect idle_world)))) = true
  /\ volume (interact ClickMute (interactions [Slide 40; ClickMute]
               (fst (run volume_effect idle_world)))) = 1.
Proof.
  split; [reflexivity|].
  destruct (volume_zero_means_muted idle_world (mkVideo 1 false None)
              [Slide 40; ClickPlay] eq_refl) as [_ [[Hvol Hmuted] _]].
  split; [exact Hvol|]. split; [exact Hmuted|].
  destruct (volume_zero_means_muted idle_world (mkVideo 1 false None)
              [Slide 40; ClickMute] eq_refl) as [_ [_ Hunmute]].
  exact (proj1 (Hunmute eq_refl)).
Defined.


(** ** DRM key strings *)

Lemma split_without_colon (s : string) :
  has_colon s = false -> split ":" s = [s].
Proof.
  induction s as [|c rest IH]; cbn [has_colon split]; intros H.
  - reflexivity.
  - apply orb_false_iff in H. destruct H as [Hc Hrest].
    rewrite Hc, (IH Hrest). reflexivity.
Qed.

Lemma split_at_first_colon (a b : string) :
  has_colon a = false ->
  split ":" (a ++ String ":" b) = a :: split ":" b.
Proof.
  induction a as [|c rest IH]; cbn [has_colon split String.append]; intros H.
  - reflexivity.
  - apply orb_false_iff in H. destruct H as [Hc Hrest].
    rewrite Hc, (IH Hrest). reflexivity.
Qed.

Lemma clearKeys_of_well_formed (keyId key : string) :
  has_colon keyId = false -> has_colon key = false ->
  clearKeys_of (keyId ++ String ":" key) = [(keyId, Some key)].
Proof.
  intros Hid Hkey. unfold clearKeys_of.
  rewrite (split_at_first_colon _ _ Hid), (split_without_colon _ Hkey).
  reflexivity.
Qed.

Lemma clearKeys_of_without_colon (k : string) :
  has_colon k = false -> clearKeys_of k = [(k, None)].
Proof.
  intros Hk. unfold clearKeys_of. rewrite (split_without_colon _ Hk).
  reflexivity.
Qed.

(** ** initPlayer *)

(** C2, as stated, fails: a key string without a colon is handed to the
    engine as a clear key whose value is undefined, nothing is reported,
    and the load goes ahead. *)
Lemma malformed_key_is_configured_silently :
  history (fst (drive [Fulfilled; Fulfilled] (initPlayer malformed_channel)
                      engine_world))
  = [EInstallAll; EConstruct 0%nat true; EConfigure 0%nat playback_config;
     EAddErrorListener 0%nat;
     ELog "Configuring DRM with key:" "abc123";
     EConfigure 0%nat (DrmConfig [("abc123", None)] drm_retry);
     ELog "Loading URL:" "https://example/manifest.mpd";
     ELoadCall 0%nat "https://example/manifest.mpd"].
Proof. vm_compute. reflexivity. Qed.

(** What [initPlayer] does with the DRM key [k] of its channel, in terms
    of [clearKeys_of k]. *)
Lemma initPlayer_applies_drm
      (w : world) (v : HTMLVideoElement) (sh : Shaka) (channel : Channel)
      (k : string) (s : settled) :
  videoRef w = Some v ->
  window_shaka w = Some sh ->
  isBrowserSupported sh = true ->
  configure_throws sh playback_config = None ->
  truthy (drmKey channel) = Some k ->
  let p := next_player w in
  let drm := DrmConfig (clearKeys_of k) drm_retry in
  let result := drive (past_teardown w s ++ [Fulfilled]) (initPlayer channel) w in
  exists evs,
    trace (fst result) = evs ++ trace w
    /\ In (EConfigure p drm) evs
    /\ match configure_throws sh drm with
       | None =>
           (forall a, ~ In (EError "Error initializing player:" a) evs)
           /\ hd_error evs = Some (ELoadCall p (url channel))
           /\ exists k', snd result = Suspended (PLoad p (url channel)) k'
       | Some e =>
           hd_error evs = Some (EError "Error initializing player:" e)
           /\ (forall u, ~ In (ELoadCall p u) evs)
           /\ snd result = Finished tt
       end.
Proof.
  intros Hv Hsh Hsup Hcfg Hk p drm result. subst p drm result.
  open_world w. destruct sh as [sup thr].
  cbn [isBrowserSupported configure_throws] in *. subst sup.
  vm_compute in Hcfg. vm_compute in Hk.
  destruct (thr (DrmConfig (clearKeys_of k) drm_retry)) as [e|] eqn:Hdrm;
    vm_compute in Hdrm;
    match goal with
    | |- context [drive ?ss ?m ?w0] => destruct (drive ss m w0) as [w2 st] eqn:Hrun
    end;
    unfold past_teardown in Hrun;
    (destruct spr as [p0|]; [destruct s|]);
    vm_compute in Hrun; rewrite Hk in Hrun;
    vm_compute in Hrun; rewrite Hcfg in Hrun;
    vm_compute in Hrun; rewrite Hdrm in Hrun;
    vm_compute in Hrun; injection Hrun as <- <-;
    cbn [fst snd trace];
    match goal with
    | |- exists evs, ?l = _ /\ _ =>
        let evs := new_events tr l in exists evs
    end;
    (split; [exact eq_refl|]); vm_compute;
    (split; [find_in|]);
    (split; [first [exact eq_refl | intros a H; not_in H]|]);
    (split; [first [exact eq_refl | intros a H; not_in H]|]);
    match goal with
    | |- exists _, _ => eexists; exact eq_refl
    | |- _ = _ => exact eq_refl
    end.
Qed.

(** C2, amended.  For every channel whose DRM key string contains no
    colon, applying DRM passes the engine a clearKeys object that maps
    the whole string to undefined.  This layer raises no error of its
    own: when the engine's configure returns, nothing is reported and
    the load of the channel URL follows; an error is reported (logged as
    an initialization error, with no load) exactly when the engine's
    configure throws. *)
Theorem key_without_colon_is_passed_on
        (w : world) (v : HTMLVideoElement) (sh : Shaka) (channel : Channel)
        (k : string) (s : settled) :
  videoRef w = Some v ->
  window_shaka w = Some sh ->
  isBrowserSupported sh = true ->
  configure_throws sh playback_config = None ->
  truthy (drmKey channel) = Some k ->
  has_colon k = false ->
  let p := next_player w in
  let drm := DrmConfig [(k, None)] drm_retry in
  let result := drive (past_teardown w s ++ [Fulfilled]) (initPlayer channel) w in
  exists evs,
    trace (fst result) = evs ++ trace w
    /\ In (EConfigure p drm) evs
    /\ match configure_throws sh drm with
       | None =>
           (forall a, ~ In (EError "Error initializing player:" a) evs)
           /\ hd_error evs = Some (ELoadCall p (url channel))
           /\ exists k', snd result = Suspended (PLoad p (url channel)) k'
       | Some e =>
           hd_error evs = Some (EError "Error initializing player:" e)
           /\ (forall u, ~ In (ELoadCall p u) evs)
           /\ snd result = Finished tt
       end.
Proof.
  intros Hv Hsh Hsup Hcfg Hk Hcolon.
  rewrite <- (clearKeys_of_without_colon k Hcolon).
  exact (initPlayer_applies_drm w v sh channel k s Hv Hsh Hsup Hcfg Hk).
Qed.

Lemma key_without_colon_is_passed_on_witness :
  videoRef engine_world = Some (mkVideo 1 false None)
  /\ has_colon "abc123" = false
  /\ exists evs,
      trace (fst (drive [Fulfilled; Fulfilled] (initPlayer malformed_channel)
                        engine_world)) = evs ++ []
      /\ In (EConfigure 0%nat (DrmConfig [("abc123", None)] drm_retry)) evs.
Proof.
  split; [reflexivity|]. split; [reflexivity|].
  destruct (key_without_colon_is_passed_on
              engine_world (mkVideo 1 false None) always_accepts
              malformed_channel "abc123" Fulfilled
              eq_refl eq_refl eq_refl eq_refl eq_refl eq_refl)
    as [evs [Htrace [Hin _]]].
  exists evs. split; [exact Htrace|exact Hin].
Defined.

(** Follow [drive] along the outcomes the environment can choose;
    [rew] rewrites with what is known of the channel and the engine. *)
Ltac eval_in H :=
  lazy -[clearKeys_of playback_config drm_retry truthy after_play] in H.
Ltac eval_goal :=
  lazy -[clearKeys_of playback_config drm_retry truthy after_play].

Ltac drive_cases H rew :=
  repeat (eval_in H;
          try discriminate H;
          first [ rew
                | split_branch_in H
                | match goal with
                  | ss : list settled |- _ =>
                      match type of H with context [ss] => destruct ss end
                  end ]).

Ltac close_conjuncts :=
  repeat match goal with
         | |- _ /\ _ => split
         | |- True => exact I
         | |- _ = _ => exact eq_refl
         | |- _ \/ _ => find_in
         end.

Lemma initPlayer_configures_before_load
      (channel : Channel) (k : string) (w : world) (ss : list settled) :
  truthy (drmKey channel) = Some k ->
  exists evs,
    trace (fst (drive ss (initPlayer channel) w)) = evs ++ trace w
    /\ loads_follow_configure (DrmConfig (clearKeys_of k) drm_retry)
                              (url channel) evs.
Proof.
  intros Hk.
  destruct (drive ss (initPlayer channel) w) as [w2 st] eqn:Hrun.
  open_world w. destruct channel as [cid cname u d].
  cbn [drmKey url] in *.
  drive_cases Hrun ltac:(rewrite Hk in Hrun);
    eval_in Hrun; injection Hrun as <- <-;
    cbn [fst trace];
    match goal with
    | |- exists evs, ?l = _ /\ _ => let evs := new_events tr l in exists evs
    end;
    (split; [exact eq_refl|]);
    eval_goal; close_conjuncts.
Qed.

Lemma well_formed_key_is_truthy (keyId key : string) :
  truthy (Some (keyId ++ String ":" key)%string) = Some (keyId ++ String ":" key)%string.
Proof. destruct keyId; reflexivity. Qed.

(** C6.  A well-formed key string [keyId:key] parses into those two
    components.  For a channel that carries it, whatever the state and
    the outcomes of the engine's promises, every call of [load] made by
    initialize has the channel URL as argument and comes after a call of
    [configure], on the same engine instance, whose drm options have
    clearKeys mapping [keyId] to [key]; [configure] has returned by then.
    When the video element is bound and the engine is present, supported
    and accepts the options, that call of [load] is made.  The scenario
    of the spec is the instance k1, v1, https://example/manifest.mpd. *)
Theorem clear_key_configured_before_load
        (keyId key cid cname u : string) :
  has_colon keyId = false ->
  has_colon key = false ->
  let channel := mkChannel cid cname u (Some (keyId ++ String ":" key)%string) in
  let drm := DrmConfig [(keyId, Some key)] drm_retry in
  clearKeys_of (keyId ++ String ":" key)%string = [(keyId, Some key)]
  /\ (forall w ss,
       exists evs,
         trace (fst (drive ss (initPlayer channel) w)) = evs ++ trace w
         /\ loads_follow_configure drm u evs)
  /\ (forall w v sh s,
       videoRef w = Some v ->
       window_shaka w = Some sh ->
       isBrowserSupported sh = true ->
       (forall c, configure_throws sh c = None) ->
       exists evs,
         trace (fst (drive (past_teardown w s ++ [Fulfilled])
                           (initPlayer channel) w)) = evs ++ trace w
         /\ hd_error evs = Some (ELoadCall (next_player w) u)
         /\ In (EConfigure (next_player w) drm) evs).
Proof.
  intros Hid Hkey channel drm. subst channel drm.
  pose proof (clearKeys_of_well_formed keyId key Hid Hkey) as Hparse.
  split; [exact Hparse|]. rewrite <- Hparse. split.
  - intros w ss.
    apply (initPlayer_configures_before_load
             (mkChannel cid cname u (Some (keyId ++ String ":" key)%string))).
    apply well_formed_key_is_truthy.
  - intros w v sh s Hv Hsh Hsup Hcfg.
    destruct (initPlayer_applies_drm
                w v sh (mkChannel cid cname u (Some (keyId ++ String ":" key)%string))
                (keyId ++ String ":" key)%string s Hv Hsh Hsup (Hcfg _)
                (well_formed_key_is_truthy keyId key))
      as [evs [Htrace [Hin Hrest]]].
    rewrite Hcfg in Hrest. destruct Hrest as [_ [Hhd _]].
    exists evs. repeat split; assumption.
Qed.

Lemma clear_key_configured_before_load_witness :
  has_colon "k1" = false
  /\ has_colon "v1" = false
  /\ exists evs,
      trace (fst (drive [Fulfilled; Fulfilled] (initPlayer scenario_channel)
                        engine_world)) = evs ++ []
      /\ hd_error evs = Some (ELoadCall 0%nat "https://example/manifest.mpd")
      /\ In (EConfigure 0%nat (DrmConfig [("k1", Some "v1")] drm_retry)) evs.
Proof.
  split; [reflexivity|]. split; [reflexivity|].
  destruct (clear_key_configured_before_load
              "k1" "v1" "1" "One" "https://example/manifest.mpd"
              eq_refl eq_refl) as [_ [_ Hload]].
  exact (Hload engine_world (mkVideo 1 false None) always_accepts
               Fulfilled eq_refl eq_refl eq_refl (fun _ => eq_refl)).
Defined.

(** ** The outcome of a load *)

(** C7, as stated, fails: a load can succeed without playback being
    started and without the playing flag being set, when the video
    element is no longer bound at that moment.  And where the element is
    bound, a load can succeed and the playing flag be set without
    playback being started: [play()] is called, the browser refuses it,
    and the element stays paused. *)
Lemma load_success_without_playback :
  In (ESettled (PLoad 0%nat "https://example/two.mpd") Fulfilled)
     (trace (state unmounted_during_load))
  /\ ~ In EPlay (trace (state unmounted_during_load))
  /\ isPlaying (state unmounted_during_load) = false
  /\ In (ESettled (PLoad 0%nat "https://example/two.mpd") Fulfilled)
        (trace (state play_refused_after_load))
  /\ pool play_refused_after_load = [None]
  /\ hd_error (trace (state play_refused_after_load)) = Some EPlay
  /\ option_map el_paused (videoRef (state play_refused_after_load))
     = Some true
  /\ isPlaying (state play_refused_after_load) = true.
Proof.
  vm_compute. split; [find_in|]. split; [intros H; not_in H|].
  split; [reflexivity|]. split; [find_in|]. repeat split; reflexivity.
Qed.

(** C7, amended.  For every load of a channel URL made by initialize,
    whatever the state [w2] has become when the engine settles it: on
    success the success is logged and, provided the video element is
    still bound, [play()] is called on it and the playing flag is set,
    whatever the browser answers to [play()]: the element is left as
    [after_play] says, playing, or as it was when the call is refused
    (when the element is not bound nothing else is done); on failure the
    error is logged and the surface is left idle: [play()] is not
    called, neither the video element nor the playing flag is touched,
    and no second load is made.  In both cases initialize completes
    normally: no exception reaches the caller. *)
Theorem load_outcomes
        (channel : Channel) (w w1 : world) (ss : list settled)
        (p : player) (u : string) (k : settled -> js unit) :
  drive ss (initPlayer channel) w = (w1, Suspended (PLoad p u) k) ->
  u = url channel
  /\ forall w2,
      (forall e,
          run (k (Rejected e)) w2
          = (record (EError "Error loading video:" e) w2, Finished tt))
      /\ match videoRef w2 with
         | Some v =>
             run (k Fulfilled) w2
             = (set_isPlaying true
                  (record EPlay
                     (set_videoRef (Some (after_play v))
                        (record (ELog "Video loaded successfully" "") w2))),
                Finished tt)
         | None =>
             run (k Fulfilled) w2
             = (record (ELog "Video loaded successfully" "") w2, Finished tt)
         end.
Proof.
  intros Hrun. open_world w. destruct channel as [cid cname u0 d].
  cbn [url].
  drive_cases Hrun fail;
    eval_in Hrun; injection Hrun as <- <- <- <-;
    (split; [exact eq_refl|]);
    intros w2; destruct w2 as [vr2 spr2 playing2 vol2 ctl2 muted2 wsh2 np2 tr2];
    (split; [intros e; eval_goal; exact eq_refl|]);
    destruct vr2 as [v2|]; eval_goal; exact eq_refl.
Qed.

Lemma load_outcomes_witness :
  match drive [Fulfilled] (initPlayer plain_channel) engine_world with
  | (_, Suspended (PLoad p u) k) =>
      u = "https://example/two.mpd"
      /\ run (k (Rejected "404")) idle_world
         = (record (EError "Error loading video:" "404") idle_world,
            Finished tt)
      /\ run (k Fulfilled) paused_world
         = (set_isPlaying true
              (record EPlay
                 (set_videoRef (Some (mkVideo 1 false None))
                    (record (ELog "Video loaded successfully" "")
                            paused_world))),
            Finished tt)
  | _ => False
  end.
Proof.
  destruct (drive [Fulfilled] (initPlayer plain_channel) engine_world)
    as [w1 st] eqn:Hrun.
  assert (Hst : exists p u k, st = Suspended (PLoad p u) k).
  { vm_compute in Hrun. injection Hrun as _ <-. do 3 eexists. reflexivity. }
  destruct Hst as [p [u [k ->]]].
  destruct (load_outcomes plain_channel engine_world w1 [Fulfilled] p u k Hrun)
    as [Hu Hk].
  split; [exact Hu|]. split; [exact (proj1 (Hk idle_world) "404")|].
  exact (proj2 (Hk paused_world)).
Defined.

(** ** Channel change *)

(** C3: the code at the failing schedule.  Once everything has settled,
    two engine instances are attached to the video element and alive:
    the one that loaded channel A, on which destroy was never called,
    and the one that loaded channel B. *)
Theorem rapid_changes_leave_two_engines :
  pool rapid_changes = [None; None; None; None]
  /\ live (state rapid_changes) = [1%nat; 2%nat]
  /\ shakaPlayerRef (state rapid_changes) = Some 2%nat
  /\ In (ELoadCall 1%nat (url channel_A)) (trace (state rapid_changes))
  /\ In (ELoadCall 2%nat (url channel_B)) (trace (state rapid_changes))
  /\ ~ In (EDestroyCall 1%nat) (trace (state rapid_changes)).
Proof.
  vm_compute.
  split; [reflexivity|]. split; [reflexivity|]. split; [reflexivity|].
  split; [find_in|]. split; [find_in|].
  intros H. not_in H.
Qed.

(** The same defect within a single channel change: the cleanup calls
    [destroyPlayer] without awaiting it, and when its promise settles
    after the new engine instance has been stored, it clears the
    reference to the new instance, which the next change will therefore
    not destroy. *)
Lemma late_cleanup_clears_new_reference :
  let sys := schedule [ChannelChange channel_A;
                       Settle 1 Fulfilled; Settle 1 Fulfilled;
                       Settle 1 Fulfilled; Settle 0 Fulfilled]
                      (mkSystem session_world []) in
  live (state sys) = [1%nat] /\ shakaPlayerRef (state sys) = None.
Proof. vm_compute. split; reflexivity. Qed.

Lemma explored_step (P : system -> Prop) (n : nat) (sys : system) :
  P sys ->
  (forall i s, destroy_fulfils sys i s ->
               settle i s sys = sys \/ explored P n (settle i s sys)) ->
  explored P (S n) sys.
Proof. intros HP Hstep. split; assumption. Qed.

Lemma explored_sound (P : system -> Prop) (n : nat) (sys : system) :
  explored P n sys ->
  forall hs, destroys_fulfil hs sys -> P (settles hs sys).
Proof.
  intros Hex hs. revert n sys Hex.
  induction hs as [|[i s] hs IH]; intros n sys Hex Hok.
  - destruct n; exact (proj1 Hex).
  - destruct Hok as [Hi Hrest]. cbn [settles fold_left fst snd].
    change (P (settles hs (settle i s sys))).
    destruct n as [|n]; destruct Hex as [HP Hstep];
      destruct (Hstep i s Hi) as [Hsame|Hnext].
    + rewrite Hsame in *. apply (IH 0%nat); [split; assumption|assumption].
    + contradiction.
    + rewrite Hsame in *. apply (IH (S n)); [split; assumption|assumption].
    + apply (IH n); assumption.
Qed.

Ltac eval_sys :=
  lazy -[explored orderly clearKeys_of playback_config drm_retry truthy
         after_play].

Ltac prove_orderly tr0 :=
  unfold orderly; cbn [state trace pool];
  match goal with
  | |- exists evs, ?l = _ /\ _ => let evs := new_events tr0 l in exists evs
  end;
  (split; [exact eq_refl|]);
  lazy -[clearKeys_of playback_config drm_retry after_play];
  (split; [close_conjuncts|]);
  (split; [repeat constructor|]);
  intros Hready Hdone;
  first [exact eq_refl | discriminate Hready | discriminate Hdone].

(** Visit every system reachable by settlements; [a] is the slot the
    settlement is for. *)
Ltac explore tr0 :=
  repeat (eval_sys; split_branch); eval_sys;
  lazymatch goal with
  | |- explored _ _ (mkSystem _ [?a; ?b]) =>
      apply explored_step;
      [ prove_orderly tr0
      | let i := fresh "i" in
        let s := fresh "s" in
        let Hok := fresh "Hok" in
        intros i s Hok;
        destruct i as [|[|i]];
        [ explore_slot tr0 a s Hok
        | explore_slot tr0 b s Hok
        | left; destruct i; exact eq_refl ] ]
  end
with explore_slot tr0 a s Hok :=
  lazymatch a with
  | None => left; exact eq_refl
  | Some (mkTask PResolved _) => right; explore tr0
  | Some (mkTask (PDestroy _) _) =>
      destruct s; [right; explore tr0 | exfalso; exact Hok]
  | Some (mkTask _ _) => destruct s; right; explore tr0
  end.

(** C4, as stated, fails: when the engine's destroy rejects, the new
    engine instance is constructed although no destroy of the old
    session has succeeded, and both are attached to the video element. *)
Lemma failed_destroy_then_initialize :
  let sys := settles [(0%nat, Rejected "busy"); (1%nat, Rejected "busy");
                      (1%nat, Fulfilled); (1%nat, Rejected "busy");
                      (1%nat, Fulfilled)]
                     (change_of_channel channel_A session_world) in
  live (state sys) = [0%nat; 1%nat]
  /\ ~ In (ESettled (PDestroy 0%nat) Fulfilled) (trace (state sys)).
Proof.
  vm_compute. split; [reflexivity|]. intros H. not_in H.
Qed.

(** C4, amended.  For every channel change made while a session [p0]
    exists and no lifecycle call is pending, and for every order in
    which the engine then settles the pending promises, provided its
    destroy calls fulfil: at most one new engine instance is
    constructed, it is constructed only after a destroy of the old
    session has fulfilled, and exactly one has been constructed once the
    destroy-then-initialize sequence has returned with the video element
    bound and the engine present and supported. *)
Theorem channel_change_is_orderly
        (w : world) (p0 : player) (channel : Channel)
        (hs : list (nat * settled)) :
  shakaPlayerRef w = Some p0 ->
  destroys_fulfil hs (change_of_channel channel w) ->
  let sys := settles hs (change_of_channel channel w) in
  exists evs,
    trace (state sys) = evs ++ trace w
    /\ constructs_follow_destroy p0 evs
    /\ (constructions evs <= 1)%nat
    /\ (usableb w = true -> nth_error (pool sys) 1 = Some None ->
        constructions evs = 1%nat).
Proof.
  intros Hp Hok.
  apply (explored_sound (orderly p0 (usableb w) (trace w)) 12
                        (change_of_channel channel w)); [|exact Hok].
  clear Hok hs. open_world w. destruct channel as [cid cname u d].
  destruct vr as [v|]; [|explore tr].
  destruct wsh as [[sup thr]|]; [|explore tr].
  destruct sup; explore tr.
Qed.

Lemma channel_change_is_orderly_witness :
  shakaPlayerRef session_world = Some 0%nat
  /\ destroys_fulfil settled_in_turn (change_of_channel channel_A session_world)
  /\ exists evs,
      trace (state (settles settled_in_turn
                            (change_of_channel channel_A session_world)))
      = evs ++ trace session_world
      /\ constructs_follow_destroy 0%nat evs
      /\ (constructions evs <= 1)%nat
      /\ (usableb session_world = true ->
          nth_error (pool (settles settled_in_turn
                                   (change_of_channel channel_A session_world)))
                    1 = Some None ->
          constructions evs = 1%nat).
Proof.
  split; [reflexivity|].
  assert (Hok : destroys_fulfil settled_in_turn
                  (change_of_channel channel_A session_world)).
  { vm_compute. repeat split. }
  split; [exact Hok|].
  exact (channel_change_is_orderly session_world 0%nat channel_A
           settled_in_turn eq_refl Hok).
Defined.

(** C9, as stated, fails: the overlay dispatches three callbacks, not
    six; [onTogglePlay], [onToggleMute] and [onVolumeChange] are none
    of them, and its output does not change with the playing flag, the
    muted flag or the volume. *)
Lemma overlay_dispatches_three_callbacks :
  let out := ChannelControls (props_of (sample_inputs true false 1)) in
  flat_map dispatched out <> spec_callbacks (sample_inputs true false 1)
  /\ ~ In "onTogglePlay" (flat_map dispatched out)
  /\ ~ In "onToggleMute" (flat_map dispatched out)
  /\ ~ In "onVolumeChange" (flat_map dispatched out)
  /\ out = ChannelControls (props_of (sample_inputs false true 0)).
Proof.
  cbv zeta. split; [vm_compute; discriminate|].
  repeat split; try reflexivity;
    vm_compute; intros H;
    repeat (destruct H as [H|H]; [discriminate H|]); exact H.
Qed.

(** C9, amended.  The controls overlay is a stateless pure function
    of its props: what it shows is determined by the channel name
    alone, the only text it shows, and the callbacks it dispatches
    are exactly [onPrevious], [onNext] and [onShowChannels], in that
    order.  It takes no playing flag, muted flag or volume. *)
Theorem overlay_is_a_function_of_channel_name
        (Callback : Type) (previous next showChannels : Callback)
        (previous' next' showChannels' : Callback) (name : string) :
  let out := ChannelControls (mkProps previous next showChannels name) in
  flat_map dispatched out = [previous; next; showChannels]
  /\ flat_map texts out = [name]
  /\ map visual out
     = map visual (ChannelControls (mkProps previous' next' showChannels' name)).
Proof. repeat split. Qed.

(** * Further properties *)

(** ** Event handlers *)

(** X1. Whatever the state, bound video element or not, an event
    handler followed by its commit completes without an exception,
    leaves the session reference, the engine global and the instance
    counter alone, and adds to the trace nothing but calls of [play] and
    [pause] on the video element: no click, hover or slider move ever
    reaches the streaming engine or the console. *)
Theorem interactions_do_not_reach_the_engine (i : interaction) (w : world) :
  snd (interact_status i w) = Finished tt
  /\ shakaPlayerRef (interact i w) = shakaPlayerRef w
  /\ window_shaka (interact i w) = window_shaka w
  /\ next_player (interact i w) = next_player w
  /\ exists evs,
      trace (interact i w) = evs ++ trace w /\ Forall is_video_event evs.
Proof.
  unfold interact, interact_status. open_world w.
  destruct i; destruct vr as [v|]; ui_symex;
    try destruct playing; try destruct muted; ui_symex;
    repeat match goal with
           | |- context [Qeq_bool ?a ?b] => destruct (Qeq_bool a b)
           end; ui_symex;
    (split; [reflexivity|]); (split; [reflexivity|]);
    (split; [reflexivity|]); (split; [reflexivity|]);
    first [ exists []; split; [reflexivity|constructor]
          | exists [EPlay]; split; [reflexivity|repeat constructor]
          | exists [EPause]; split; [reflexivity|repeat constructor] ].
Qed.

(** X2. With the video element bound, [togglePlay] flips the playing
    flag and calls [pause] when the flag was set and [play] when it was
    not, without looking at the element or at what [play()] answers.
    [pause] leaves the element paused; [play] leaves it as [after_play]
    says; a second click restores the flag; and where the browser
    refuses [play()], a click on play sets the flag over an element
    whose paused attribute has not moved. *)
Theorem togglePlay_flips_the_flag (w : world) (v : HTMLVideoElement) :
  videoRef w = Some v ->
  let w' := interact ClickPlay w in
  isPlaying w' = negb (isPlaying w)
  /\ trace w' = (if isPlaying w then EPause else EPlay) :: trace w
  /\ videoRef w'
     = Some (if isPlaying w
             then mkVideo (el_volume v) true (el_play_refused v)
             else after_play v)
  /\ isPlaying (interact ClickPlay w') = isPlaying w
  /\ (isPlaying w = false -> el_play_refused v <> None ->
      isPlaying w' = true
      /\ option_map el_paused (videoRef w') = Some (el_paused v)).
Proof.
  intros Hv. unfold interact, interact_status. open_world w.
  destruct playing; ui_symex; rewrite Qeq_bool_refl; ui_symex;
    rewrite Qeq_bool_refl; ui_symex;
    (split; [reflexivity|]); (split; [reflexivity|]);
    (split; [reflexivity|]); (split; [reflexivity|]).
  - intros Hno. discriminate Hno.
  - intros _ Hrefused. split; [reflexivity|].
    unfold after_play. destruct v as [lvl paused [e|]]; cbn.
    + reflexivity.
    + exfalso. apply Hrefused. reflexivity.
Qed.

Lemma togglePlay_flips_the_flag_witness :
  videoRef autoplay_blocked_world
  = Some (mkVideo 1 true (Some "NotAllowedError"))
  /\ isPlaying (interact ClickPlay autoplay_blocked_world) = false
  /\ trace (interact ClickPlay autoplay_blocked_world) = [EPause]
  /\ isPlaying (interact ClickPlay (interact ClickPlay autoplay_blocked_world))
     = true
  /\ option_map el_paused
       (videoRef (interact ClickPlay
                    (interact ClickPlay autoplay_blocked_world)))
     = Some true.
Proof.
  split; [reflexivity|].
  destruct (togglePlay_flips_the_flag
              autoplay_blocked_world (mkVideo 1 true (Some "NotAllowedError"))
              eq_refl) as [Hflag [Htrace [_ [Hback _]]]].
  split; [exact Hflag|]. split; [exact Htrace|]. split; [exact Hback|].
  destruct (togglePlay_flips_the_flag
              (interact ClickPlay autoplay_blocked_world)
              (mkVideo 1 true (Some "NotAllowedError"))
              eq_refl) as [_ [_ [_ [_ Hstuck]]]].
  refine (proj2 (Hstuck eq_refl _)). discriminate.
Defined.

(** ** Volume *)

Lemma after_play_volume (v : HTMLVideoElement) :
  el_volume (after_play v) = el_volume v.
Proof. destruct v as [lvl paused [e|]]; reflexivity. Qed.

Lemma interact_keeps_volume_agreement (i : interaction) (w : world) :
  bound w -> volume_agrees w ->
  bound (interact i w) /\ volume_agrees (interact i w).
Proof.
  intros [v Hv] Hagree. unfold volume_agrees, bound, interact, interact_status in *.
  open_world w. cbn in Hagree.
  destruct i; ui_symex.
  - destruct playing; ui_symex; rewrite Qeq_bool_refl; ui_symex;
      rewrite ?after_play_volume;
      (split; [eexists; reflexivity|exact Hagree]).
  - destruct muted; ui_symex;
      match goal with
      | |- context [Qeq_bool ?a ?b] => destruct (Qeq_bool a b)
      end; ui_symex; (split; [eexists; reflexivity|reflexivity]).
  - destruct (Qeq_bool vol (Qred (inject_Z value0 / 100))) eqn:Hsame; ui_symex.
    + split; [eexists; reflexivity|].
      apply Qeq_bool_iff in Hsame. rewrite Hagree. exact Hsame.
    + split; [eexists; reflexivity|reflexivity].
  - rewrite Qeq_bool_refl. ui_symex. split; [eexists; reflexivity|exact Hagree].
  - rewrite Qeq_bool_refl. ui_symex. split; [eexists; reflexivity|exact Hagree].
Qed.

(** X3. With the video element bound at mount, the element's volume
    attribute equals the volume state after the mount effect and after
    every sequence of clicks, hovers and slider moves that follows. *)
Theorem element_volume_follows_state
        (w0 : world) (v : HTMLVideoElement) (l : list interaction) :
  videoRef w0 = Some v ->
  let w := interactions l (fst (run volume_effect w0)) in
  exists v', videoRef w = Some v' /\ el_volume v' == volume w.
Proof.
  intros Hv w.
  assert (Hstart : bound (fst (run volume_effect w0))
                   /\ volume_agrees (fst (run volume_effect w0))).
  { unfold bound, volume_agrees. open_world w0. ui_symex.
    split; [eexists; reflexivity|reflexivity]. }
  subst w. generalize dependent (fst (run volume_effect w0)).
  clear Hv. induction l as [|i l IH]; intros w [Hb Hagree].
  - destruct Hb as [v' Hv']. exists v'. split; [exact Hv'|].
    unfold volume_agrees in Hagree. rewrite Hv' in Hagree. exact Hagree.
  - cbn [interactions fold_left]. apply IH.
    apply interact_keeps_volume_agreement; assumption.
Qed.

Lemma element_volume_follows_state_witness :
  videoRef idle_world = Some (mkVideo 1 false None)
  /\ exists v',
      videoRef (interactions [Slide 25; ClickMute]
                             (fst (run volume_effect idle_world))) = Some v'
      /\ el_volume v'
         == volume (interactions [Slide 25; ClickMute]
                                 (fst (run volume_effect idle_world))).
Proof.
  split; [reflexivity|].
  exact (element_volume_follows_state idle_world (mkVideo 1 false None)
           [Slide 25; ClickMute] eq_refl).
Defined.

Lemma slider_level_in_range (value0 : Z) :
  (0 <= value0 <= 100)%Z ->
  0 <= Qred (inject_Z value0 / 100) /\ Qred (inject_Z value0 / 100) <= 1.
Proof.
  intros Hrange. rewrite Qred_correct.
  unfold Qdiv, Qle, Qmult, Qinv, inject_Z. cbn. lia.
Qed.

Lemma interact_keeps_volume_in_range (i : interaction) (w : world) :
  on_slider_track i ->
  0 <= volume w /\ volume w <= 1 ->
  0 <= volume (interact i w) /\ volume (interact i w) <= 1.
Proof.
  intros Htrack Hrange. unfold interact, interact_status.
  open_world w. cbn in Hrange.
  destruct i; destruct vr as [v|]; ui_symex;
    try destruct playing; try destruct muted; ui_symex;
    repeat match goal with
           | |- context [Qeq_bool ?a ?b] => destruct (Qeq_bool a b)
           end; ui_symex;
    first [ exact Hrange
          | exact (slider_level_in_range value0 Htrack)
          | split; discriminate ].
Qed.

(** X4. The volume stays between 0 and 1: starting from a level in
    that range (the initial level is 1), every sequence of clicks,
    hovers and moves of the slider along its track (positions 0 to 100)
    leaves the volume state in the range, and with it the volume
    attribute of a video element bound since mount. *)
Theorem volume_stays_in_range
        (w0 : world) (v : HTMLVideoElement) (l : list interaction) :
  videoRef w0 = Some v ->
  0 <= volume w0 /\ volume w0 <= 1 ->
  Forall on_slider_track l ->
  let w := interactions l (fst (run volume_effect w0)) in
  (0 <= volume w /\ volume w <= 1)
  /\ exists v', videoRef w = Some v' /\ 0 <= el_volume v' /\ el_volume v' <= 1.
Proof.
  intros Hv Hrange Htrack w.
  assert (Hstate : 0 <= volume w /\ volume w <= 1).
  { subst w.
    assert (Hstart : 0 <= volume (fst (run volume_effect w0))
                     /\ volume (fst (run volume_effect w0)) <= 1).
    { open_world w0. ui_symex. exact Hrange. }
    generalize dependent (fst (run volume_effect w0)). clear Hv Hrange.
    induction Htrack as [|i l Hi Hl IH]; intros w Hw.
    - exact Hw.
    - cbn [interactions fold_left]. apply IH.
      apply interact_keeps_volume_in_range; assumption. }
  split; [exact Hstate|].
  destruct (element_volume_follows_state w0 v l Hv) as [v' [Hv' Heq]].
  exists v'. split; [exact Hv'|]. fold w in Heq. rewrite Heq. exact Hstate.
Qed.

Lemma volume_stays_in_range_witness :
  videoRef idle_world = Some (mkVideo 1 false None)
  /\ (0 <= volume idle_world /\ volume idle_world <= 1)
  /\ Forall on_slider_track [Slide 100; ClickMute; Slide 0]
  /\ (0 <= volume (interactions [Slide 100; ClickMute; Slide 0]
                                (fst (run volume_effect idle_world)))
      /\ volume (interactions [Slide 100; ClickMute; Slide 0]
                              (fst (run volume_effect idle_world))) <= 1).
Proof.
  assert (Hrange : 0 <= volume idle_world /\ volume idle_world <= 1).
  { split; discriminate. }
  assert (Htrack : Forall on_slider_track [Slide 100; ClickMute; Slide 0]).
  { repeat constructor; discriminate. }
  split; [reflexivity|]. split; [exact Hrange|]. split; [exact Htrack|].
  exact (proj1 (volume_stays_in_range idle_world (mkVideo 1 false None)
                  [Slide 100; ClickMute; Slide 0] eq_refl Hrange Htrack)).
Defined.

(** ** Parsing of the DRM key string *)

Lemma split_at_colon (s : string) :
  (has_colon s = false /\ split ":" s = [s])
  \/ exists a rest,
      has_colon a = false
      /\ s = (a ++ String ":" rest)%string
      /\ split ":" s = a :: split ":" rest.
Proof.
  induction s as [|c s IH].
  - left. split; reflexivity.
  - cbn [has_colon split]. destruct (Ascii.eqb c ":") eqn:Hc.
    + apply Ascii.eqb_eq in Hc. subst c. right.
      exists EmptyString, s. repeat split; reflexivity.
    + destruct IH as [[Hno Hs]|[a [rest [Ha [Hs Hsplit]]]]].
      * left. rewrite Hno, Hs. split; reflexivity.
      * right. exists (String c a), rest. cbn [has_colon]. rewrite Hc, Ha, Hsplit.
        split; [reflexivity|]. split; [|reflexivity].
        rewrite Hs. reflexivity.
Qed.

(** X5. What the engine is given as clear key, for every key string:
    one entry.  A string without a colon becomes the key id, with the
    value undefined.  Otherwise the key id is the text before the first
    colon and the value the text between the first colon and the second
    (or the end); neither contains a colon, either may be empty, and
    whatever follows a second colon is not used. *)
Theorem clearKeys_of_shape (k : string) :
  (has_colon k = false /\ clearKeys_of k = [(k, None)])
  \/ exists keyId key more,
      has_colon keyId = false
      /\ has_colon key = false
      /\ (more = EmptyString \/ exists r, more = String ":" r)
      /\ k = (keyId ++ String ":" (key ++ more))%string
      /\ clearKeys_of k = [(keyId, Some key)].
Proof.
  unfold clearKeys_of.
  destruct (split_at_colon k) as [[Hno Hk]|[a [rest [Ha [Hk Hsplit]]]]].
  - left. rewrite Hk. split; [exact Hno|reflexivity].
  - right. rewrite Hsplit.
    destruct (split_at_colon rest) as [[Hno Hr]|[b [rest' [Hb [Hr Hsplit']]]]].
    + exists a, rest, EmptyString. rewrite Hr.
      split; [exact Ha|]. split; [exact Hno|]. split; [left; reflexivity|].
      split; [|reflexivity].
      rewrite Hk. f_equal. f_equal.
      clear. induction rest as [|c r IH]; [reflexivity|].
      cbn. rewrite <- IH. reflexivity.
    + exists a, b, (String ":" rest'). rewrite Hsplit'.
      split; [exact Ha|]. split; [exact Hb|].
      split; [right; eexists; reflexivity|].
      split; [|reflexivity].
      rewrite Hk, Hr. reflexivity.
Qed.

(** X6. A key string with more than two parts is not refused: for a key
    id and a key without colons, [keyId:key:anything] yields the same
    clear key as [keyId:key]. *)
Theorem clearKeys_of_drops_further_parts (keyId key anything : string) :
  has_colon keyId = false ->
  has_colon key = false ->
  clearKeys_of (keyId ++ String ":" (key ++ String ":" anything))
  = clearKeys_of (keyId ++ String ":" key)
  /\ clearKeys_of (keyId ++ String ":" (key ++ String ":" anything))
     = [(keyId, Some key)].
Proof.
  intros Hid Hkey.
  rewrite (clearKeys_of_well_formed keyId key Hid Hkey).
  assert (H : clearKeys_of (keyId ++ String ":" (key ++ String ":" anything))
              = [(keyId, Some key)]).
  { unfold clearKeys_of.
    rewrite (split_at_first_colon _ _ Hid), (split_at_first_colon _ _ Hkey).
    reflexivity. }
  split; exact H.
Qed.

Lemma clearKeys_of_drops_further_parts_witness :
  has_colon "abc123" = false
  /\ has_colon "deadbeef" = false
  /\ clearKeys_of "abc123:deadbeef:cafe" = clearKeys_of "abc123:deadbeef".
Proof.
  split; [reflexivity|]. split; [reflexivity|].
  exact (proj1 (clearKeys_of_drops_further_parts "abc123" "deadbeef" "cafe"
                  eq_refl eq_refl)).
Defined.

(** ** Initialize: environment and configuration errors *)

(** X7. Initialize is a no-op while it has nothing to work with: when the
    video element is not bound or the engine global is not defined (the
    script has not loaded yet), it returns at once without touching the
    state; in particular it does not destroy an existing session and
    logs nothing. *)
Theorem initPlayer_waits_for_video_and_engine
        (channel : Channel) (w : world) (ss : list settled) :
  videoRef w = None \/ window_shaka w = None ->
  drive ss (initPlayer channel) w = (w, Finished tt).
Proof.
  intros Hmissing. open_world w.
  destruct vr as [v|]; [destruct wsh as [sh|]|].
  - destruct Hmissing; discriminate.
  - destruct ss; reflexivity.
  - destruct ss; reflexivity.
Qed.

Lemma initPlayer_waits_for_video_and_engine_witness :
  (videoRef idle_world = None \/ window_shaka idle_world = None)
  /\ drive [Fulfilled] (initPlayer plain_channel) idle_world
     = (idle_world, Finished tt).
Proof.
  split; [right; reflexivity|].
  exact (initPlayer_waits_for_video_and_engine
           plain_channel idle_world [Fulfilled] (or_intror eq_refl)).
Defined.

(** X8. In a browser the engine does not support, initialize installs
    the polyfills, logs the initialization error and stops there: the
    existing session is neither destroyed nor replaced, and no engine
    instance is constructed. *)
Theorem initPlayer_in_unsupported_browser
        (channel : Channel) (w : world) (v : HTMLVideoElement) (sh : Shaka)
        (ss : list settled) :
  videoRef w = Some v ->
  window_shaka w = Some sh ->
  isBrowserSupported sh = false ->
  drive ss (initPlayer channel) w
  = (record (EError "Error initializing player:" "Browser not supported!")
            (record EInstallAll w),
     Finished tt).
Proof.
  intros Hv Hsh Hsup. open_world w. destruct sh as [sup thr].
  cbn in Hsup. subst sup. destruct ss; reflexivity.
Qed.

Lemma initPlayer_in_unsupported_browser_witness :
  videoRef unsupported_world = Some (mkVideo 1 false None)
  /\ shakaPlayerRef
       (fst (drive [Fulfilled] (initPlayer plain_channel) unsupported_world))
     = Some 0%nat.
Proof.
  split; [reflexivity|].
  rewrite (initPlayer_in_unsupported_browser
             plain_channel unsupported_world (mkVideo 1 false None)
             (mkShaka false (fun _ => None)) [Fulfilled]
             eq_refl eq_refl eq_refl).
  reflexivity.
Defined.

(** X9. When the engine refuses the fixed playback configuration
    ([configure] throws), initialize logs the initialization error and
    stops: no error listener is registered and nothing is loaded, but
    the instance just constructed is attached and stays in the session
    reference, where the next destroy will find it. *)
Theorem initPlayer_when_configure_throws
        (channel : Channel) (w : world) (v : HTMLVideoElement) (sh : Shaka)
        (e : string) (s : settled) :
  videoRef w = Some v ->
  window_shaka w = Some sh ->
  isBrowserSupported sh = true ->
  configure_throws sh playback_config = Some e ->
  let result := drive (past_teardown w s) (initPlayer channel) w in
  let p := next_player w in
  snd result = Finished tt
  /\ shakaPlayerRef (fst result) = Some p
  /\ exists evs,
      trace (fst result) = evs ++ trace w
      /\ hd_error evs = Some (EError "Error initializing player:" e)
      /\ In (EConstruct p true) evs
      /\ ~ In (EAddErrorListener p) evs
      /\ forall u, ~ In (ELoadCall p u) evs.
Proof.
  intros Hv Hsh Hsup Hcfg result p. subst result p.
  open_world w. destruct sh as [sup thr].
  cbn [isBrowserSupported configure_throws] in *. subst sup.
  match goal with
  | |- context [drive ?ss ?m ?w0] => destruct (drive ss m w0) as [w2 st] eqn:Hrun
  end.
  unfold past_teardown in Hrun. destruct channel as [cid cname u d].
  destruct spr as [p0|]; [destruct s|];
    eval_in Hrun; rewrite Hcfg in Hrun; eval_in Hrun;
    injection Hrun as <- <-; cbn [fst snd trace shakaPlayerRef];
    (split; [exact eq_refl|]); (split; [exact eq_refl|]);
    match goal with
    | |- exists evs, ?l = _ /\ _ => let evs := new_events tr l in exists evs
    end;
    (split; [exact eq_refl|]); (split; [exact eq_refl|]);
    (split; [find_in|]);
    (split; [intros H; not_in H|intros u0 H; not_in H]).
Qed.

Lemma initPlayer_when_configure_throws_witness :
  videoRef refusing_world = Some (mkVideo 1 false None)
  /\ snd (drive [Fulfilled] (initPlayer plain_channel) refusing_world)
     = Finished tt
  /\ shakaPlayerRef
       (fst (drive [Fulfilled] (initPlayer plain_channel) refusing_world))
     = Some 0%nat.
Proof.
  split; [reflexivity|].
  destruct (initPlayer_when_configure_throws
              plain_channel refusing_world (mkVideo 1 false None)
              (mkShaka true (fun _ => Some "invalid configuration"))
              "invalid configuration" Fulfilled
              eq_refl eq_refl eq_refl eq_refl) as [Hst [Href _]].
  split; [exact Hst|exact Href].
Defined.

(** ** Initialize: what it does at most, and in which order *)

Ltac refute_in H :=
  unfold In in H;
  repeat (destruct H as [H|H]; [congruence|]);
  contradiction.

(** X10. One call of initialize, in every state and for every outcome
    of the engine's promises: constructs at most one engine instance;
    calls [load] at most once (no retry), with the channel URL, and only
    after it has applied the fixed playback configuration to the same
    instance; and calls [destroy] on no instance other than the one the
    session reference held when it started. *)
Theorem initPlayer_does_at_most (channel : Channel) (w : world) (ss : list settled) :
  exists evs,
    trace (fst (drive ss (initPlayer channel) w)) = evs ++ trace w
    /\ (constructions evs <= 1)%nat
    /\ (load_calls evs <= 1)%nat
    /\ loads_follow_configure playback_config (url channel) evs
    /\ forall p, In (EDestroyCall p) evs -> shakaPlayerRef w = Some p.
Proof.
  destruct (drive ss (initPlayer channel) w) as [w2 st] eqn:Hrun.
  open_world w. destruct channel as [cid cname u d].
  cbn [drmKey url] in *.
  drive_cases Hrun fail;
    eval_in Hrun; injection Hrun as <- <-;
    cbn [fst trace];
    match goal with
    | |- exists evs, ?l = _ /\ _ => let evs := new_events tr l in exists evs
    end;
    (split; [exact eq_refl|]);
    (split; [lazy; repeat constructor|]);
    (split; [lazy; repeat constructor|]);
    (split; [eval_goal; close_conjuncts|]);
    intros q H; refute_in H.
Qed.

(** X11. For a channel without a DRM key, or with the empty string as
    key, initialize never hands the engine any drm options, whatever the
    state and the outcomes of the engine's promises. *)
Theorem initPlayer_without_key_sets_no_drm
        (channel : Channel) (w : world) (ss : list settled) :
  drmKey channel = None \/ drmKey channel = Some EmptyString ->
  exists evs,
    trace (fst (drive ss (initPlayer channel) w)) = evs ++ trace w
    /\ forall p keys retry, ~ In (EConfigure p (DrmConfig keys retry)) evs.
Proof.
  intros Hkey.
  assert (Hk : truthy (drmKey channel) = None).
  { destruct Hkey as [-> | ->]; reflexivity. }
  clear Hkey.
  destruct (drive ss (initPlayer channel) w) as [w2 st] eqn:Hrun.
  open_world w. destruct channel as [cid cname u d].
  cbn [drmKey url] in *.
  drive_cases Hrun ltac:(rewrite Hk in Hrun);
    eval_in Hrun; injection Hrun as <- <-;
    cbn [fst trace];
    match goal with
    | |- exists evs, ?l = _ /\ _ => let evs := new_events tr l in exists evs
    end;
    (split; [exact eq_refl|]);
    intros q keys retry H; unfold playback_config in H; refute_in H.
Qed.

Lemma initPlayer_without_key_sets_no_drm_witness :
  (drmKey plain_channel = None \/ drmKey plain_channel = Some EmptyString)
  /\ exists evs,
      trace (fst (drive [Fulfilled; Fulfilled] (initPlayer plain_channel)
                        engine_world)) = evs ++ trace engine_world
      /\ forall p keys retry, ~ In (EConfigure p (DrmConfig keys retry)) evs.
Proof.
  split; [left; reflexivity|].
  exact (initPlayer_without_key_sets_no_drm
           plain_channel engine_world [Fulfilled; Fulfilled]
           (or_introl eq_refl)).
Defined.

(** ** Nothing is thrown upward *)

(** X12. The promise returned by [destroyPlayer], [initPlayer] or
    [initNewChannel] never rejects: in every state, for every channel
    and every outcome of the engine's promises (destroy or load
    rejected, configure throwing, browser unsupported), the call is
    either still pending or has completed normally.  This is about
    these three promises; the promise returned by [play()], which
    [initPlayer] drops, is not one of them. *)
Theorem lifecycle_never_rejects
        (channel : Channel) (w : world) (ss : list settled) (e : string) :
  snd (drive ss destroyPlayer w) <> Failed e
  /\ snd (drive ss (initPlayer channel) w) <> Failed e
  /\ snd (drive ss (initNewChannel channel) w) <> Failed e.
Proof.
  split; [|split].
  - destruct (drive ss destroyPlayer w) as [w2 st] eqn:Hrun.
    open_world w.
    drive_cases Hrun fail; eval_in Hrun; injection Hrun as <- <-;
      cbn [snd]; discriminate.
  - destruct (drive ss (initPlayer channel) w) as [w2 st] eqn:Hrun.
    open_world w. destruct channel as [cid cname u d].
    drive_cases Hrun fail; eval_in Hrun; injection Hrun as <- <-;
      cbn [snd]; discriminate.
  - destruct (drive ss (initNewChannel channel) w) as [w2 st] eqn:Hrun.
    open_world w. destruct channel as [cid cname u d].
    drive_cases Hrun fail; eval_in Hrun; injection Hrun as <- <-;
      cbn [snd]; discriminate.
Qed.

(** ** The lifecycle leaves the volume controls alone *)

Ltac same_controls_cases Hrun :=
  drive_cases Hrun fail; eval_in Hrun; injection Hrun as <- <-;
  cbn [fst]; unfold same_controls;
  cbn [volume isMuted showControls videoRef window_shaka option_map el_volume];
  rewrite ?after_play_volume;
  repeat split; reflexivity.

(** X13. Destroy, initialize and the destroy-then-initialize sequence
    of a channel change never touch the volume, the muted flag, the
    visibility of the controls, the volume attribute of the video
    element or the engine global, whatever the state, the channel and
    the outcomes of the engine's promises. *)
Theorem lifecycle_leaves_controls_alone
        (channel : Channel) (w : world) (ss : list settled) :
  same_controls w (fst (drive ss destroyPlayer w))
  /\ same_controls w (fst (drive ss (initPlayer channel) w))
  /\ same_controls w (fst (drive ss (initNewChannel channel) w)).
Proof.
  split; [|split].
  - destruct (drive ss destroyPlayer w) as [w2 st] eqn:Hrun.
    open_world w. same_controls_cases Hrun.
  - destruct (drive ss (initPlayer channel) w) as [w2 st] eqn:Hrun.
    open_world w. destruct channel as [cid cname u d].
    same_controls_cases Hrun.
  - destruct (drive ss (initNewChannel channel) w) as [w2 st] eqn:Hrun.
    open_world w. destruct channel as [cid cname u d].
    same_controls_cases Hrun.
Qed.

(** ** Channel change, end to end *)

(** X14. A channel change while a session exists calls the engine's
    [destroy] twice on the old instance, once from the effect cleanup
    and once from [initNewChannel], before either call has settled; the
    session reference still holds the old instance while both are
    pending. *)
Theorem channel_change_destroys_twice
        (w : world) (p0 : player) (channel : Channel) :
  shakaPlayerRef w = Some p0 ->
  state (change_of_channel channel w)
  = record (EDestroyCall p0) (record (EDestroyCall p0) w)
  /\ map (option_map awaited) (pool (change_of_channel channel w))
     = [Some (PDestroy p0); Some (PDestroy p0)].
Proof.
  intros Hp. open_world w. split; reflexivity.
Qed.

Lemma channel_change_destroys_twice_witness :
  shakaPlayerRef session_world = Some 0%nat
  /\ trace (state (change_of_channel channel_A session_world))
     = [EDestroyCall 0%nat; EDestroyCall 0%nat; EConstruct 0%nat true].
Proof.
  split; [reflexivity|].
  rewrite (proj1 (channel_change_destroys_twice session_world 0%nat channel_A
                    eq_refl)).
  reflexivity.
Defined.

Ltac eval_change :=
  lazy -[explored change_settled clearKeys_of playback_config drm_retry truthy
         after_play].

Ltac load_rejected H :=
  unfold In in H;
  repeat (destruct H as [H|H];
          [first [ congruence
                 | injection H as <-;
                   split; [exact eq_refl|];
                   split; [find_in|];
                   split; [|exact eq_refl];
                   let Hplay := fresh "Hplay" in
                   intros Hplay; refute_in Hplay ]|]);
  contradiction.

Ltac prove_change_settled tr0 :=
  unfold change_settled;
  cbn [state pool trace shakaPlayerRef isPlaying videoRef next_player];
  let Hdone := fresh "Hdone" in
  intros Hdone;
  first
    [ discriminate Hdone
    | clear Hdone;
      (split; [first [left; exact eq_refl | right; exact eq_refl]|]);
      match goal with
      | |- exists evs, ?l = _ /\ _ => let evs := new_events tr0 l in exists evs
      end;
      (split; [exact eq_refl|]);
      split;
      [ let H := fresh "H" in
        intros H;
        first [ split; [exact eq_refl|]; split; [find_in|exact eq_refl]
              | exfalso; refute_in H ]
      | let e := fresh "e" in
        let H := fresh "H" in
        intros e H; load_rejected H ] ].

Ltac explore_by ev prove tr0 :=
  repeat (ev; split_branch); ev;
  lazymatch goal with
  | |- explored _ _ (mkSystem _ [?a; ?b]) =>
      apply explored_step;
      [ prove tr0
      | let i := fresh "i" in
        let s := fresh "s" in
        let Hok := fresh "Hok" in
        intros i s Hok;
        destruct i as [|[|i]];
        [ explore_slot_by ev prove tr0 a s Hok
        | explore_slot_by ev prove tr0 b s Hok
        | left; destruct i; exact eq_refl ] ]
  end
with explore_slot_by ev prove tr0 a s Hok :=
  lazymatch a with
  | None => left; exact eq_refl
  | Some (mkTask PResolved _) => right; explore_by ev prove tr0
  | Some (mkTask (PDestroy _) _) =>
      destruct s; [right; explore_by ev prove tr0 | exfalso; exact Hok]
  | Some (mkTask _ _) => destruct s; right; explore_by ev prove tr0
  end.

(** X15. A channel change made while a session exists and no call is
    pending, once both of its calls have returned, in whatever order
    the engine settled the promises (its destroys fulfilling): the
    session reference holds the new instance or null, never the old
    one; if the load of the new channel was fulfilled, [play()] was
    called, the playing flag is set, and the video element is as
    [after_play] says: playing, or as it was where the browser refuses
    the call; if the load was rejected the error is logged, [play()]
    was not called, and the playing flag and the video element are what
    they were before. *)
Theorem settled_channel_change
        (w : world) (p0 : player) (channel : Channel)
        (hs : list (nat * settled)) :
  shakaPlayerRef w = Some p0 ->
  destroys_fulfil hs (change_of_channel channel w) ->
  let sys := settles hs (change_of_channel channel w) in
  pool sys = [None; None] ->
  (shakaPlayerRef (state sys) = None
   \/ shakaPlayerRef (state sys) = Some (next_player w))
  /\ exists evs,
      trace (state sys) = evs ++ trace w
      /\ (In (ESettled (PLoad (next_player w) (url channel)) Fulfilled) evs ->
          isPlaying (state sys) = true
          /\ In EPlay evs
          /\ videoRef (state sys) = option_map after_play (videoRef w))
      /\ (forall e,
            In (ESettled (PLoad (next_player w) (url channel)) (Rejected e)) evs ->
            isPlaying (state sys) = isPlaying w
            /\ In (EError "Error loading video:" e) evs
            /\ ~ In EPlay evs
            /\ videoRef (state sys) = videoRef w).
Proof.
  intros Hp Hok.
  apply (explored_sound (change_settled w (url channel)) 12
                        (change_of_channel channel w)); [|exact Hok].
  clear Hok hs. open_world w. destruct channel as [cid cname u d].
  cbn [url].
  destruct vr as [v|]; [|explore_by eval_change prove_change_settled tr].
  destruct wsh as [[sup thr]|]; [|explore_by eval_change prove_change_settled tr].
  destruct sup; explore_by eval_change prove_change_settled tr.
Qed.

Lemma settled_channel_change_witness :
  shakaPlayerRef session_world = Some 0%nat
  /\ destroys_fulfil settled_in_turn (change_of_channel channel_A session_world)
  /\ pool (settles settled_in_turn (change_of_channel channel_A session_world))
     = [None; None]
  /\ (shakaPlayerRef
        (state (settles settled_in_turn
                        (change_of_channel channel_A session_world))) = None
      \/ shakaPlayerRef
           (state (settles settled_in_turn
                           (change_of_channel channel_A session_world)))
         = Some 1%nat).
Proof.
  assert (Hok : destroys_fulfil settled_in_turn
                  (change_of_channel channel_A session_world)).
  { vm_compute. repeat split. }
  assert (Hdone : pool (settles settled_in_turn
                                (change_of_channel channel_A session_world))
                  = [None; None]).
  { vm_compute. reflexivity. }
  split; [reflexivity|]. split; [exact Hok|]. split; [exact Hdone|].
  exact (proj1 (settled_channel_change session_world 0%nat channel_A
                  settled_in_turn eq_refl Hok Hdone)).
Defined.

(** X16. Initialize, when the engine does not fail: with the video
    element bound, the engine present, supported and accepting its
    options, and the load fulfilled, then whatever became of the destroy
    of a previous session, initialize completes with the new instance in
    the session reference, exactly one instance constructed and one load
    made, for the channel URL, and the playing flag set; the last thing
    it does is call [play()], and the video element is as [after_play]
    says: playing, or as it was where the browser refuses the call,
    under a playing flag that is set all the same. *)
Theorem initPlayer_loads_and_calls_play
        (channel : Channel) (w : world) (v : HTMLVideoElement) (sh : Shaka)
        (s : settled) :
  videoRef w = Some v ->
  window_shaka w = Some sh ->
  isBrowserSupported sh = true ->
  (forall c, configure_throws sh c = None) ->
  let result :=
    drive (past_teardown w s ++ drm_tick channel ++ [Fulfilled])
          (initPlayer channel) w in
  snd result = Finished tt
  /\ shakaPlayerRef (fst result) = Some (next_player w)
  /\ isPlaying (fst result) = true
  /\ videoRef (fst result) = Some (after_play v)
  /\ exists evs,
      trace (fst result) = evs ++ trace w
      /\ hd_error evs = Some EPlay
      /\ constructions evs = 1%nat
      /\ load_calls evs = 1%nat
      /\ In (ELoadCall (next_player w) (url channel)) evs.
Proof.
  intros Hv Hsh Hsup Hcfg result. subst result.
  open_world w. destruct sh as [sup thr].
  cbn [isBrowserSupported configure_throws] in *. subst sup.
  destruct channel as [cid cname u d]. unfold drm_tick. cbn [drmKey url].
  destruct (truthy d) as [k|] eqn:Hk;
    match goal with
    | |- context [drive ?ss ?m ?w0] => destruct (drive ss m w0) as [w2 st] eqn:Hrun
    end;
    unfold past_teardown in Hrun;
    (destruct spr as [p0|]; [destruct s|]);
    drive_cases Hrun fail;
    try discriminate Hk;
    try match goal with
        | H : thr _ = Some _ |- _ => rewrite Hcfg in H; discriminate H
        end;
    eval_in Hrun; injection Hrun as <- <-;
    cbn [fst snd trace shakaPlayerRef isPlaying videoRef];
    (split; [exact eq_refl|]); (split; [exact eq_refl|]);
    (split; [exact eq_refl|]); (split; [exact eq_refl|]);
    match goal with
    | |- exists evs, ?l = _ /\ _ => let evs := new_events tr l in exists evs
    end;
    (split; [exact eq_refl|]); (split; [exact eq_refl|]);
    (split; [exact eq_refl|]); (split; [exact eq_refl|]);
    find_in.
Qed.

Lemma initPlayer_loads_and_calls_play_witness :
  videoRef session_world = Some (mkVideo 1 false None)
  /\ isPlaying
       (fst (drive [Rejected "busy"; Fulfilled; Fulfilled; Fulfilled]
                   (initPlayer scenario_channel) session_world)) = true
  /\ shakaPlayerRef
       (fst (drive [Rejected "busy"; Fulfilled; Fulfilled; Fulfilled]
                   (initPlayer scenario_channel) session_world))
     = Some 1%nat.
Proof.
  split; [reflexivity|].
  destruct (initPlayer_loads_and_calls_play
              scenario_channel session_world (mkVideo 1 false None) always_accepts
              (Rejected "busy") eq_refl eq_refl eq_refl (fun _ => eq_refl))
    as [_ [Href [Hplaying _]]].
  split; [exact Hplaying|exact Href].
Defined.

(** ** Mount *)

Lemma settles_from (P : system -> Prop) (sys : system) :
  P sys ->
  (forall i s, settle i s sys = sys
               \/ forall hs, P (settles hs (settle i s sys))) ->
  forall hs, P (settles hs sys).
Proof.
  intros HP Hstep hs. induction hs as [|[i s] hs IH].
  - exact HP.
  - cbn [settles fold_left fst snd].
    change (P (settles hs (settle i s sys))).
    destruct (Hstep i s) as [Hsame|Hnext].
    + rewrite Hsame. exact IH.
    + apply Hnext.
Qed.

Ltac one_slot i :=
  destruct i as [|i]; [|left; destruct i; reflexivity].

(** X17. Mounted before the engine script has loaded, the component
    sets the volume of the video element to the initial level 1 and does
    nothing else, however the pending ticks are scheduled: no engine
    call, no log line, no session; the initial state is playing, volume
    1, not muted, controls hidden. *)
Theorem mount_before_script_loads
        (c0 : Channel) (v : HTMLVideoElement) (hs : list (nat * settled)) :
  state (settles hs (mount c0 v None))
  = mkWorld (Some (mkVideo 1 (el_paused v) (el_play_refused v)))
            None true 1 false false None 0%nat [].
Proof.
  pose (P := fun sys : system =>
               state sys
               = mkWorld (Some (mkVideo 1 (el_paused v) (el_play_refused v)))
                         None true 1 false false None 0%nat []).
  change (P (settles hs (mount c0 v None))). revert hs.
  apply settles_from; [reflexivity|].
  intros i s. one_slot i. right.
  apply settles_from; [reflexivity|].
  intros i s'. one_slot i. right.
  apply settles_from; [reflexivity|].
  intros i s''. left. destruct i as [|i]; [reflexivity|destruct i; reflexivity].
Qed.

(** ** Mute *)

(** X18. With the video element bound, two clicks on mute give back
    the muted flag but not the level: the component ends unmuted at
    volume 1 when it was not muted, whatever the level was, and muted at
    volume 0 when it was muted; the element's volume is set
    accordingly. *)
Theorem mute_twice_forgets_the_level (w : world) (v : HTMLVideoElement) :
  videoRef w = Some v ->
  let w2 := interact ClickMute (interact ClickMute w) in
  isMuted w2 = isMuted w
  /\ volume w2 = (if isMuted w then 0 else 1)
  /\ option_map el_volume (videoRef w2) = Some (if isMuted w then 0 else 1).
Proof.
  intros Hv. unfold interact, interact_status. open_world w.
  destruct muted; ui_symex;
    repeat match goal with
           | |- context [Qeq_bool ?a ?b] =>
               first [ is_var a; destruct (Qeq_bool a b)
                     | let r := eval vm_compute in (Qeq_bool a b) in
                       change (Qeq_bool a b) with r ];
               ui_symex
           end;
    repeat split; reflexivity.
Qed.

Lemma mute_twice_forgets_the_level_witness :
  videoRef quiet_world = Some (mkVideo (2 # 5) false None)
  /\ volume (interact ClickMute (interact ClickMute quiet_world)) = 1.
Proof.
  split; [reflexivity|].
  exact (proj1 (proj2 (mute_twice_forgets_the_level
                         quiet_world (mkVideo (2 # 5) false None) eq_refl))).
Defined.

Lemma slide_sets_volume (value0 : Z) (w : world) :
  volume (interact (Slide value0) w) = Qred (inject_Z value0 / 100).
Proof.
  unfold interact, interact_status. open_world w. ui_symex.
  destruct (Qeq_bool vol (Qred (inject_Z value0 / 100))); ui_symex;
    [reflexivity|].
  destruct vr; reflexivity.
Qed.

(** X19. With the video element bound at mount, in every state reached
    by clicks, hovers and slider moves the muted flag is set exactly
    when the volume is 0: the component is never muted at an audible
    level, and moving the slider off 0 unmutes. *)
Theorem muted_exactly_at_volume_zero
        (w0 : world) (v : HTMLVideoElement) (l : list interaction) :
  videoRef w0 = Some v ->
  let w := interactions l (fst (run volume_effect w0)) in
  isMuted w = Qeq_bool (volume w) 0
  /\ forall value0,
      (1 <= value0 <= 100)%Z -> isMuted (interact (Slide value0) w) = false.
Proof.
  intros Hv w.
  assert (Hinv : bound w /\ muted_agrees w).
  { destruct (volume_effect_establishes w0) as [Hb Hm]; [eexists; eassumption|].
    apply interactions_preserve; assumption. }
  destruct Hinv as [Hb Hm]. split; [exact Hm|].
  intros value0 Hrange.
  destruct (interact_preserves (Slide value0) w Hb Hm) as [_ [Hm' _]].
  rewrite Hm', slide_sets_volume.
  apply not_true_is_false. intros Hz.
  apply Qeq_bool_iff in Hz. rewrite Qred_correct in Hz.
  unfold Qeq, Qdiv, Qmult, Qinv, inject_Z in Hz. cbn in Hz. lia.
Qed.

Lemma muted_exactly_at_volume_zero_witness :
  videoRef idle_world = Some (mkVideo 1 false None)
  /\ isMuted (interact (Slide 35)
                (interactions [ClickMute] (fst (run volume_effect idle_world))))
     = false.
Proof.
  split; [reflexivity|].
  refine (proj2 (muted_exactly_at_volume_zero idle_world (mkVideo 1 false None)
                   [ClickMute] eq_refl) 35%Z _).
  split; discriminate.
Defined.
